(** * Pitch monitor and tree animation: a shallow embedding

    The development follows the two source files of the client:

    - [TreeAnimation] embeds [tree-animation.tsx]: the leaf pool, the birds,
      the frame loop of the sketch and the repeating flight campaign;
    - [PitchMonitor] embeds the pitch monitor component: the pending-flag
      scheduler around the asynchronous [getPitch] request, the frame loop
      with its cancellation flag, and the delayed flight trigger.

    JavaScript numbers are binary64 floats ([float]); numbers that the code
    only ever uses as integers (recursion depth, bird count, array indices,
    timer ids) are [Z], [nat] or [positive].  Functions of the host that the
    kernel cannot evaluate (trigonometry, random draws) are fields of a
    record that the embedded functions take as an argument, the way the
    source takes the sketch instance [p]. *)

From Stdlib Require Import ZArith List Bool Floats Reals Lra Lia.
From stdpp Require Import gmap strings list.

Set Warnings "-inexact-float".

(** ** JavaScript numbers *)

Module JS.

(** An integer literal or loop counter used in float arithmetic. *)
Definition num (z : Z) : float :=
  if (z <? 0)%Z then (- PrimFloat.of_uint63 (Uint63.of_Z (- z)))%float
  else PrimFloat.of_uint63 (Uint63.of_Z z).

(** [a > b] on numbers: false as soon as one side is NaN, as in JavaScript. *)
Definition gt (a b : float) : bool := (b <? a)%float.
Definition lt (a b : float) : bool := (a <? b)%float.

(** The [Math] functions the source calls. *)
Record Math := {
  Math_cos : float -> float;
  Math_sin : float -> float;
}.

End JS.

(** ** tree-animation.tsx *)

Module TreeAnimation.

(** The sketch instance [p], as far as the engine reads it.  [random_index]
    and [random_range] enumerate the draws of [p.random]: the [k]-th call of
    the sketch's life answers with entry [k].  [Math.floor(p.random(n))] is
    an integer of [[0, n)]; the raw draw is reduced modulo [n]. *)
Record p5 := {
  PI : float;
  cos : float -> float;
  sin : float -> float;
  width : float;
  height : float;
  random_index : nat -> nat;
  random_range : nat -> float -> float -> float;
}.

Definition floor_random (p : p5) (k n : nat) : nat := random_index p k mod n.

Record Position := { pos_x : float; pos_y : float }.

Record Leaf := {
  leaf_x : float;
  leaf_y : float;
  leaf_size : float;
  leaf_color : list Z;
  colorName : string;
  isUsed : bool;
}.

Record Bird := {
  bird_x : float;
  bird_y : float;
  bird_color : list Z;
  speed : float;
  angle : float;
  bird_size : float;
  wingAngle : float;
  wingSpeed : float;
}.

(** The variables the effect closes over ([leaves], [birds],
    [flightInterval]), the sketch's looping flag, and the host's table of
    live [setInterval] timers with the arguments their callback passes to
    [fly].  Timer ids are positive, hence truthy. *)
Record Sketch := {
  leaves : list Leaf;
  birds : list Bird;
  flightInterval : option positive;
  looping : bool;
  intervals : gmap positive (string * Z);
  nextTimer : positive;
  draws : nat;
}.

Definition set_leaves (l : list Leaf) (s : Sketch) : Sketch :=
  {| leaves := l; birds := birds s; flightInterval := flightInterval s;
     looping := looping s; intervals := intervals s;
     nextTimer := nextTimer s; draws := draws s |}.

Definition set_birds (b : list Bird) (s : Sketch) : Sketch :=
  {| leaves := leaves s; birds := b; flightInterval := flightInterval s;
     looping := looping s; intervals := intervals s;
     nextTimer := nextTimer s; draws := draws s |}.

Definition set_flightInterval (f : option positive) (s : Sketch) : Sketch :=
  {| leaves := leaves s; birds := birds s; flightInterval := f;
     looping := looping s; intervals := intervals s;
     nextTimer := nextTimer s; draws := draws s |}.

Definition set_looping (b : bool) (s : Sketch) : Sketch :=
  {| leaves := leaves s; birds := birds s; flightInterval := flightInterval s;
     looping := b; intervals := intervals s;
     nextTimer := nextTimer s; draws := draws s |}.

Definition set_intervals (m : gmap positive (string * Z)) (s : Sketch) : Sketch :=
  {| leaves := leaves s; birds := birds s; flightInterval := flightInterval s;
     looping := looping s; intervals := m;
     nextTimer := nextTimer s; draws := draws s |}.

Definition set_nextTimer (t : positive) (s : Sketch) : Sketch :=
  {| leaves := leaves s; birds := birds s; flightInterval := flightInterval s;
     looping := looping s; intervals := intervals s;
     nextTimer := t; draws := draws s |}.

Definition set_draws (k : nat) (s : Sketch) : Sketch :=
  {| leaves := leaves s; birds := birds s; flightInterval := flightInterval s;
     looping := looping s; intervals := intervals s;
     nextTimer := nextTimer s; draws := k |}.

(** *** Leaf positions *)

Definition branchCount (depth : Z) : Z := if (depth >? 4)%Z then 3%Z else 2%Z.

Definition angleStep (p : p5) : float := (PI p / 3)%float.

Definition startAngle (p : p5) (angle : float) (depth : Z) : float :=
  (angle - (angleStep p * JS.num (branchCount depth - 1)) / 2)%float.

Definition newAngle (p : p5) (angle : float) (depth i : Z) : float :=
  (startAngle p angle depth + angleStep p * JS.num i)%float.

(** End point of branch [i] leaving [(x, y)]. *)
Definition endPoint (p : p5) (x y len angle : float) (depth i : Z) : Position :=
  {| pos_x := (x + len * cos p (newAngle p angle depth i))%float;
     pos_y := (y + len * sin p (newAngle p angle depth i))%float |}.

(** [generateLeafPositions], with the array [positions] threaded through.
    [fuel] bounds the recursion depth; [depth - 1] levels are enough. *)
Fixpoint generateLeafPositions_rec (fuel : nat) (p : p5)
    (x y len angle : float) (depth : Z) (positions : list Position)
    : list Position :=
  if (depth <=? 1)%Z then positions ++ [{| pos_x := x; pos_y := y |}]
  else
    match fuel with
    | O => positions
    | S fuel' =>
        fold_left
          (fun positions i =>
             let e := endPoint p x y len angle depth i in
             let positions := positions ++ [e] in
             let newLen := (len * 0.65)%float in
             generateLeafPositions_rec fuel' p (pos_x e) (pos_y e) newLen
               (newAngle p angle depth i) (depth - 1) positions)
          (seqZ 0 (branchCount depth)) positions
    end.

Definition generateLeafPositions (p : p5) (x y len angle : float)
    (depth : Z) (positions : list Position) : list Position :=
  generateLeafPositions_rec (Z.to_nat depth) p x y len angle depth positions.

(** What one pass of the loop pushes for branch [i]: the branch end, then
    everything the recursion from there pushes. *)
Definition pushedBy (p : p5) (fuel : nat) (x y len angle : float) (depth i : Z)
    : list Position :=
  let e := endPoint p x y len angle depth i in
  e :: generateLeafPositions_rec fuel p (pos_x e) (pos_y e) (len * 0.65)%float
         (newAngle p angle depth i) (depth - 1) [].

(** The slot rule in the words of the specification: the recursion branches
    in the same way, and a slot is recorded only where it terminates
    (remaining depth at most 1). *)
Fixpoint terminalEndpoints_rec (fuel : nat) (p : p5)
    (x y len angle : float) (depth : Z) (positions : list Position)
    : list Position :=
  if (depth <=? 1)%Z then positions ++ [{| pos_x := x; pos_y := y |}]
  else
    match fuel with
    | O => positions
    | S fuel' =>
        fold_left
          (fun positions i =>
             let e := endPoint p x y len angle depth i in
             terminalEndpoints_rec fuel' p (pos_x e) (pos_y e)
               (len * 0.65)%float (newAngle p angle depth i) (depth - 1)
               positions)
          (seqZ 0 (branchCount depth)) positions
    end.

Definition terminalEndpoints (p : p5) (x y len angle : float)
    (depth : Z) (positions : list Position) : list Position :=
  terminalEndpoints_rec (Z.to_nat depth) p x y len angle depth positions.

(** Number of entries one call of [generateLeafPositions] appends. *)
Fixpoint slotCount_rec (fuel : nat) (depth : Z) : nat :=
  if (depth <=? 1)%Z then 1
  else
    match fuel with
    | O => 0
    | S fuel' =>
        Z.to_nat (branchCount depth) * (1 + slotCount_rec fuel' (depth - 1))
    end.

Definition slotCount (depth : Z) : nat := slotCount_rec (Z.to_nat depth) depth.

(** *** Leaves *)

Definition leafColors : gmap string (list Z) :=
  list_to_map
    [ ("yellow", [255; 248; 0]); ("orange", [255; 119; 51]);
      ("pink", [250; 112; 206]); ("red", [242; 92; 100]);
      ("green", [112; 250; 154]); ("darkgreen", [95; 217; 134]);
      ("blue", [94; 255; 252]); ("darkblue", [66; 135; 245]);
      ("purple", [115; 92; 242]); ("ash", [117; 117; 117]);
      ("brown", [242; 170; 92]); ("black", [10; 10; 10]) ]%Z.

Definition colors : list string :=
  [ "yellow"; "orange"; "pink"; "red"; "green"; "darkgreen"; "blue";
    "darkblue"; "purple"; "ash"; "brown"; "black" ].

(** One iteration of [leafPositions.forEach]: two draws, one leaf pushed. *)
Definition pushLeaf (p : p5) (s : Sketch) (pos : Position) : Sketch :=
  let k := draws s in
  let name := default "" (colors !! floor_random p k (length colors)) in
  let leaf :=
    {| leaf_x := pos_x pos; leaf_y := pos_y pos;
       leaf_size := random_range p (S k) 12 24;
       leaf_color := default [] (leafColors !! name);
       colorName := name; isUsed := false |} in
  set_draws (S (S k)) (set_leaves (leaves s ++ [leaf]) s).

Definition generateLeaves (p : p5) (s : Sketch) : Sketch :=
  let leafPositions :=
    generateLeafPositions p (width p / 2)%float (height p - 260)%float 126
      (- PI p / 2)%float 6 [] in
  fold_left (pushLeaf p) leafPositions s.

(** The effect's variables as declared, then [p.setup]: [noLoop] and
    [drawTree], which generates the leaves once. *)
Definition fresh : Sketch :=
  {| leaves := []; birds := []; flightInterval := None; looping := true;
     intervals := ∅; nextTimer := 1%positive; draws := 0 |}.

Definition setup (p : p5) : Sketch := generateLeaves p (set_looping false fresh).

(** *** Birds *)

(** [new Bird(p, x, y, color)]: draws [k] and [k + 1]. *)
Definition newBird (p : p5) (k : nat) (x y : float) (color : list Z) : Bird :=
  {| bird_x := x; bird_y := y; bird_color := color;
     speed := random_range p k 2 4;
     angle := random_range p (S k) (- PI p / 4)%float (-3 * PI p / 4)%float;
     bird_size := 15; wingAngle := 0; wingSpeed := 0.2 |}.

Definition Bird_update (m : JS.Math) (b : Bird) : Bird :=
  {| bird_x := (bird_x b + speed b * JS.Math_cos m (angle b))%float;
     bird_y := (bird_y b + speed b * JS.Math_sin m (angle b))%float;
     bird_color := bird_color b; speed := speed b; angle := angle b;
     bird_size := bird_size b;
     wingAngle := (wingAngle b + wingSpeed b)%float;
     wingSpeed := wingSpeed b |}.

Definition isOutOfBounds (p : p5) (b : Bird) : bool :=
  let buffer := 50%float in
  JS.lt (bird_y b) (- buffer)%float
  || JS.gt (bird_y b) (height p + buffer)%float
  || JS.lt (bird_x b) (- buffer)%float
  || JS.gt (bird_x b) (width p + buffer)%float.

(** *** fly *)

Definition markUsed (l : Leaf) : Leaf :=
  {| leaf_x := leaf_x l; leaf_y := leaf_y l; leaf_size := leaf_size l;
     leaf_color := leaf_color l; colorName := colorName l; isUsed := true |}.

Definition eligible (color : option string) (l : Leaf) : bool :=
  negb (isUsed l)
  && match color with
     | None => true
     | Some c => bool_decide (colorName l = c)
     end.

(** [leaves.filter(...)] returns an array of references to the leaf objects
    of [leaves]; a reference is the leaf's index in [leaves]. *)
Definition eligibleAt (color : option string) (ls : list Leaf) (i : nat) : bool :=
  match ls !! i with
  | Some l => eligible color l
  | None => false
  end.

Definition availableLeaves (color : option string) (ls : list Leaf) : list nat :=
  filter (fun i => eligibleAt color ls i = true) (seq 0 (length ls)).

(** What a call leaves behind: the state, and whether it returned or threw
    ([leaf] undefined when the drawn index is outside [availableLeaves]). *)
Inductive outcome := Returned (s : Sketch) | Threw (s : Sketch).

Definition state_of (o : outcome) : Sketch :=
  match o with Returned s => s | Threw s => s end.

(** The body of the [for] loop, [n] iterations left. *)
Fixpoint flyLoop (p : p5) (n : nat) (available : list nat) (s : Sketch) : outcome :=
  match n with
  | O => Returned s
  | S n' =>
      let k := draws s in
      let index := floor_random p k (length available) in
      match available !! index with
      | None => Threw (set_draws (S k) s)
      | Some ref =>
          match leaves s !! ref with
          | None => Threw (set_draws (S k) s)
          | Some leaf =>
              let bird := newBird p (S k) (leaf_x leaf) (leaf_y leaf) (leaf_color leaf) in
              let s' :=
                set_draws (3 + k)
                  (set_birds (birds s ++ [bird])
                     (set_leaves (alter markUsed ref (leaves s)) s)) in
              flyLoop p n' (delete index available) s'
          end
      end
  end.

Definition numToFly (count : Z) (available : list nat) : Z :=
  Z.min count (Z.of_nat (length available)).

Definition fly (p : p5) (color : option string) (count : Z) (s : Sketch) : outcome :=
  let available := availableLeaves color (leaves s) in
  match flyLoop p (Z.to_nat (numToFly count available)) available s with
  | Returned s' => Returned (if looping s' then s' else set_looping true s')
  | Threw s' => Threw s'
  end.

(** *** draw *)

(** The loop over [birds], from index [i - 1] down to 0. *)
Fixpoint drawBirds (p : p5) (m : JS.Math) (i : nat) (bs : list Bird) : list Bird :=
  match i with
  | O => bs
  | S i' =>
      match bs !! i' with
      | None => bs
      | Some b =>
          let b' := Bird_update m b in
          let bs' := <[i' := b']> bs in
          drawBirds p m i' (if isOutOfBounds p b' then delete i' bs' else bs')
      end
  end.

Definition draw (p : p5) (m : JS.Math) (s : Sketch) : Sketch :=
  let bs := drawBirds p m (length (birds s)) (birds s) in
  let s' := set_birds bs s in
  if (length bs =? 0)%nat then set_looping false s' else s'.

(** *** The flight campaign *)

Definition clearInterval (t : positive) (s : Sketch) : Sketch :=
  set_intervals (delete t (intervals s)) s.

Definition setInterval (cb : string * Z) (s : Sketch) : positive * Sketch :=
  let t := nextTimer s in
  (t, set_nextTimer (Pos.succ t) (set_intervals (<[t := cb]> (intervals s)) s)).

(** The closure [startRandomFlight] returns.  It reads the variable
    [flightInterval] when it is called. *)
Definition cancelFlight (s : Sketch) : Sketch :=
  match flightInterval s with
  | Some t => clearInterval t s
  | None => s
  end.

Definition startRandomFlight (color : string) (count : Z) (s : Sketch)
    : Sketch * (Sketch -> Sketch) :=
  let s1 := match flightInterval s with
            | Some t => clearInterval t s
            | None => s
            end in
  let '(t, s2) := setInterval (color, count) s1 in
  (set_flightInterval (Some t) s2, cancelFlight).

(** The effect's cleanup, up to [newSketch.remove()]. *)
Definition teardown (s : Sketch) : Sketch :=
  match flightInterval s with
  | Some t => clearInterval t s
  | None => s
  end.

(** *** What can happen to a sketch after [setup] *)

Inductive Event :=
| Fly (color : option string) (count : Z)
| StartRandomFlight (color : string) (count : Z)
| Cancel
| Interval (t : positive)
| Frame
| Teardown.

(** [Interval t]: the host runs the callback of timer [t] if it is live.
    [Frame]: p5 calls [draw] while the sketch is looping. *)
Definition step (p : p5) (m : JS.Math) (s : Sketch) (e : Event) : Sketch :=
  match e with
  | Fly color count => state_of (fly p color count s)
  | StartRandomFlight color count => fst (startRandomFlight color count s)
  | Cancel => cancelFlight s
  | Interval t =>
      match intervals s !! t with
      | Some (color, count) => state_of (fly p (Some color) count s)
      | None => s
      end
  | Frame => if looping s then draw p m s else s
  | Teardown => teardown s
  end.

Definition run (p : p5) (m : JS.Math) (s : Sketch) (tr : list Event) : Sketch :=
  fold_left (step p m) tr s.

(** The campaign whose timer is live, if any. *)
Definition campaign (s : Sketch) : option (string * Z) :=
  match flightInterval s with
  | Some t => intervals s !! t
  | None => None
  end.

Definition usedCount (ls : list Leaf) : nat :=
  length (filter (fun l => isUsed l = true) ls).

(** The leaves of [sel] marked used, one after the other. *)
Definition markAll (sel : list nat) (ls : list Leaf) : list Leaf :=
  fold_left (fun ls i => alter markUsed i ls) sel ls.

(** Bird [b] starts at leaf [i] of [ls], in that leaf's colour. *)
Definition bornAt (ls : list Leaf) (b : Bird) (i : nat) : Prop :=
  ∃ l, ls !! i = Some l
       ∧ bird_x b = leaf_x l ∧ bird_y b = leaf_y l
       ∧ bird_color b = leaf_color l.

(** Leaf [l'] is leaf [l] at a later time: the same slot, size and colour,
    and still used if it was. *)
Definition laterLeaf (l l' : Leaf) : Prop :=
  leaf_x l' = leaf_x l ∧ leaf_y l' = leaf_y l ∧ leaf_size l' = leaf_size l
  ∧ leaf_color l' = leaf_color l ∧ colorName l' = colorName l
  ∧ (isUsed l = true → isUsed l' = true).

(** At most the timer held in [flightInterval] is live, and timer ids that
    were handed out lie below [nextTimer]. *)
Definition oneCampaign (s : Sketch) : Prop :=
  (∀ t c, intervals s !! t = Some c → flightInterval s = Some t)
  ∧ (∀ t, flightInterval s = Some t → (t < nextTimer s)%positive).

Definition isStart (e : Event) : bool :=
  match e with StartRandomFlight _ _ => true | _ => false end.

Definition isSpawn (e : Event) : bool :=
  match e with Fly _ _ | Interval _ => true | _ => false end.

(** *** Drawing the tree *)

(** One call [p.line(x1, y1, x2, y2)], with the stroke weight in force. *)
Record Line := {
  line_x1 : float;
  line_y1 : float;
  line_x2 : float;
  line_y2 : float;
  line_weight : float;
}.

(** The line [drawBranch] draws for branch [i] leaving [(x, y)]. *)
Definition branchLine (p : p5) (x y len angle : float) (depth i : Z) : Line :=
  let e := endPoint p x y len angle depth i in
  {| line_x1 := x; line_y1 := y; line_x2 := pos_x e; line_y2 := pos_y e;
     line_weight := (JS.num depth * 1.5)%float |}.

(** [drawBranch], as the [p.line] calls it adds to those made so far.  The
    recursion stops at [depth === 0] only; [None] when [fuel] levels do not
    get there. *)
Fixpoint drawBranch_rec (fuel : nat) (p : p5) (x y len angle : float)
    (depth : Z) (lines : list Line) : option (list Line) :=
  if (depth =? 0)%Z then Some lines
  else
    match fuel with
    | O => None
    | S fuel' =>
        fold_left
          (fun acc i =>
             match acc with
             | None => None
             | Some lines =>
                 let e := endPoint p x y len angle depth i in
                 let lines := lines ++ [branchLine p x y len angle depth i] in
                 let newLen := (len * 0.65)%float in
                 drawBranch_rec fuel' p (pos_x e) (pos_y e) newLen
                   (newAngle p angle depth i) (depth - 1) lines
             end)
          (seqZ 0 (branchCount depth)) (Some lines)
    end.

Definition drawBranch (p : p5) (x y len angle : float) (depth : Z)
    (lines : list Line) : option (list Line) :=
  drawBranch_rec (Z.to_nat depth) p x y len angle depth lines.

(** The lines of the branches of a tree with [d] levels, level by level as
    [drawBranch] draws them. *)
Fixpoint branchLines (d : nat) (p : p5) (x y len angle : float) : list Line :=
  match d with
  | O => []
  | S d' =>
      flat_map
        (fun i =>
           let e := endPoint p x y len angle (Z.of_nat d) i in
           branchLine p x y len angle (Z.of_nat d) i
           :: branchLines d' p (pos_x e) (pos_y e) (len * 0.65)%float
                (newAngle p angle (Z.of_nat d) i))
        (seqZ 0 (branchCount (Z.of_nat d)))
  end.

(** [drawTreeStructure]: the trunk, then the branches from its top. *)
Definition drawTreeStructure (p : p5) : option (list Line) :=
  let trunkHeight := 210%float in
  let startX := (width p / 2)%float in
  let startY := (height p - 50)%float in
  let trunk :=
    {| line_x1 := startX; line_y1 := startY; line_x2 := startX;
       line_y2 := (startY - trunkHeight)%float; line_weight := 20 |} in
  drawBranch p startX (startY - trunkHeight)%float (trunkHeight * 0.6)%float
    (- PI p / 2)%float 6 [trunk].

Definition lineEnd (l : Line) : Position :=
  {| pos_x := line_x2 l; pos_y := line_y2 l |}.

Definition leafPosition (l : Leaf) : Position :=
  {| pos_x := leaf_x l; pos_y := leaf_y l |}.

(** A colour as the drawing routines read it: three channels of 8 bits. *)
Definition rgb (c : list Z) : Prop :=
  length c = 3 ∧ Forall (fun v => (0 <= v <= 255)%Z) c.

(** A leaf of the palette: its name is one of [colors] and its colour is
    that name's entry of [leafColors]. *)
Definition paletteLeaf (l : Leaf) : Prop :=
  colorName l ∈ colors ∧ leafColors !! colorName l = Some (leaf_color l)
  ∧ rgb (leaf_color l).

Definition isFly (e : Event) : bool :=
  match e with Fly _ _ => true | _ => false end.

(** The sketch as [setup] left it, but for the frame loop. *)
Definition untouched (p : p5) (sk : Sketch) : Prop :=
  leaves sk = leaves (setup p) ∧ birds sk = []
  ∧ intervals sk = ∅ ∧ flightInterval sk = None.

End TreeAnimation.

(** ** The pitch monitor component *)

Module PitchMonitor.

(** The twelve note names [freqToNote] answers with, in chromatic order
    from C. *)
Inductive NoteName := C | Db | D | Eb | E | F | Gb | G | Ab | A | Bb | B.

(** The object literal [colorMap] of [updatePitch]. *)
Definition colorMap (note : NoteName) : string :=
  match note with
  | C => "yellow" | Db => "orange" | D => "pink" | Eb => "red"
  | E => "green" | F => "darkgreen" | Gb => "blue" | G => "darkblue"
  | Ab => "purple" | A => "ash" | Bb => "brown" | B => "black"
  end.

Record Analyser := { fftSize : Z }.
Record AudioContext := { sampleRate : float }.

(** [pitchSetupRef.current]: every field is optional. *)
Record PitchSetup := {
  analyser : option Analyser;
  audioContext : option AudioContext;
  buffer : option (list float);
}.

(** The props of the component that the scheduler reads. *)
Record PitchProps := {
  detectorName : string;
  windowSize : Z;
  powerThreshold : float;
  clarityThreshold : float;
}.

(** A [getPitch] call the worker has not answered yet, with the arguments
    it was made with.  [req_controller] belongs to the suspended caller: it
    tells whether the [startRandomFlight] that this [updatePitch] closed
    over had a controller. *)
Record Request := {
  req_samples : list float;
  req_sampleRate : float;
  req_powerThreshold : float;
  req_clarityThreshold : float;
  req_controller : bool;
}.

(** A [setTimeout] callback that has not run yet. *)
Record Timeout := {
  to_color : string;
  to_count : Z;
  to_controller : bool;
}.

(** One run of the effect: its [escape.cancelRender], how far its loop has
    got, and the controller state the render it belongs to saw.  A run whose
    [setupConnection] threw is [Failed]: the promise of its async function
    is rejected and [renderFrame] is never called for it. *)
Inductive Phase := SettingUp | Requested | Stopped | Failed.

Record Loop := {
  cancelRender : bool;
  phase : Phase;
  loop_controller : bool;
}.

Record State := {
  freq : option float;
  clarity : option float;
  pendingRef : bool;
  pitchSetupRef : PitchSetup;
  controller : bool;
  loops : list Loop;
  requests : list Request;
  timeouts : list Timeout;
  sketch : TreeAnimation.Sketch;
}.

Definition set_display (f c : option float) (s : State) : State :=
  {| freq := f; clarity := c; pendingRef := pendingRef s;
     pitchSetupRef := pitchSetupRef s; controller := controller s;
     loops := loops s; requests := requests s; timeouts := timeouts s;
     sketch := sketch s |}.

Definition set_pendingRef (b : bool) (s : State) : State :=
  {| freq := freq s; clarity := clarity s; pendingRef := b;
     pitchSetupRef := pitchSetupRef s; controller := controller s;
     loops := loops s; requests := requests s; timeouts := timeouts s;
     sketch := sketch s |}.

Definition set_pitchSetupRef (ps : PitchSetup) (s : State) : State :=
  {| freq := freq s; clarity := clarity s; pendingRef := pendingRef s;
     pitchSetupRef := ps; controller := controller s;
     loops := loops s; requests := requests s; timeouts := timeouts s;
     sketch := sketch s |}.

Definition set_controller (b : bool) (s : State) : State :=
  {| freq := freq s; clarity := clarity s; pendingRef := pendingRef s;
     pitchSetupRef := pitchSetupRef s; controller := b;
     loops := loops s; requests := requests s; timeouts := timeouts s;
     sketch := sketch s |}.

Definition set_loops (l : list Loop) (s : State) : State :=
  {| freq := freq s; clarity := clarity s; pendingRef := pendingRef s;
     pitchSetupRef := pitchSetupRef s; controller := controller s;
     loops := l; requests := requests s; timeouts := timeouts s;
     sketch := sketch s |}.

Definition set_requests (r : list Request) (s : State) : State :=
  {| freq := freq s; clarity := clarity s; pendingRef := pendingRef s;
     pitchSetupRef := pitchSetupRef s; controller := controller s;
     loops := loops s; requests := r; timeouts := timeouts s;
     sketch := sketch s |}.

Definition set_timeouts (t : list Timeout) (s : State) : State :=
  {| freq := freq s; clarity := clarity s; pendingRef := pendingRef s;
     pitchSetupRef := pitchSetupRef s; controller := controller s;
     loops := loops s; requests := requests s; timeouts := t;
     sketch := sketch s |}.

Definition set_sketch (k : TreeAnimation.Sketch) (s : State) : State :=
  {| freq := freq s; clarity := clarity s; pendingRef := pendingRef s;
     pitchSetupRef := pitchSetupRef s; controller := controller s;
     loops := loops s; requests := requests s; timeouts := timeouts s;
     sketch := k |}.

Definition set_phase (ph : Phase) (l : Loop) : Loop :=
  {| cancelRender := cancelRender l; phase := ph;
     loop_controller := loop_controller l |}.

Definition set_cancelRender (b : bool) (l : Loop) : Loop :=
  {| cancelRender := b; phase := phase l;
     loop_controller := loop_controller l |}.

(** How an async function of the component ends, and the state it leaves. *)
Inductive Completion :=
| Resolved (s : State)
| Rejected (s : State).

Definition completion_state (c : Completion) : State :=
  match c with Resolved s | Rejected s => s end.

(** The calls of [setupConnection] that can fail: the worker call it
    awaits, the typed array it allocates, and its calls into the audio
    host, in the order it makes them. *)
Inductive HostCall :=
| CreateDetector
| NewFloat32Array
| NewAudioContext
| CreateMediaStreamSource
| CreateAnalyser
| SetFftSize
| Connect.

Definition callIndex (c : HostCall) : nat :=
  match c with
  | CreateDetector => 0 | NewFloat32Array => 1 | NewAudioContext => 2
  | CreateMediaStreamSource => 3 | CreateAnalyser => 4 | SetFftSize => 5
  | Connect => 6
  end.

(** Whether [c] is the call that fails. *)
Definition fails (stop : option HostCall) (c : HostCall) : bool :=
  match stop with
  | Some c' => (callIndex c' =? callIndex c)%nat
  | None => false
  end.

(** [fftSize] of an analyser as [createAnalyser] returns it. *)
Definition defaultFftSize : Z := 2048.

(** Assignments to the fields of [pitchSetupRef.current]. *)
Definition set_buffer (b : list float) (s : State) : State :=
  set_pitchSetupRef
    {| analyser := analyser (pitchSetupRef s);
       audioContext := audioContext (pitchSetupRef s);
       buffer := Some b |} s.

Definition set_audioContext (ctx : AudioContext) (s : State) : State :=
  set_pitchSetupRef
    {| analyser := analyser (pitchSetupRef s);
       audioContext := Some ctx;
       buffer := buffer (pitchSetupRef s) |} s.

Definition set_analyser (a : Analyser) (s : State) : State :=
  set_pitchSetupRef
    {| analyser := Some a;
       audioContext := audioContext (pitchSetupRef s);
       buffer := buffer (pitchSetupRef s) |} s.

Section Component.

(** The environment of one mounted component: its props, the sketch
    instance and [Math] behind the animation, and [freqToNote], which the
    component imports from the circle chart's utilities. *)
Context (props : PitchProps) (p : TreeAnimation.p5) (m : JS.Math)
        (freqToNote : float -> NoteName * Z).

(** [analyser.getFloatTimeDomainData(buffer)]: the samples the analyser
    holds are copied over the buffer, as many as fit. *)
Definition getFloatTimeDomainData (input buffer : list float) : list float :=
  take (length buffer) input ++ drop (length input) buffer.

(** [useTreeAnimation]'s [startRandomFlight]: nothing without a controller;
    the handle the controller returns is dropped. *)
Definition hook_startRandomFlight (has_controller : bool) (color : string)
    (count : Z) (s : State) : State :=
  if has_controller
  then set_sketch (fst (TreeAnimation.startRandomFlight color count (sketch s))) s
  else s.

(** [updatePitch] up to its [await]: either it returns at once, or it has
    issued one [getPitch] request and is suspended on it.  [input] is what
    the analyser holds at this moment. *)
Definition updatePitch (has_controller : bool) (input : list float)
    (s : State) : State :=
  if pendingRef s then s
  else
    let s := set_pendingRef true s in
    let pitchSetup := pitchSetupRef s in
    match analyser pitchSetup, buffer pitchSetup, audioContext pitchSetup with
    | Some a, Some b, Some ctx =>
        let b' := getFloatTimeDomainData input b in
        let s := set_pitchSetupRef
                   {| analyser := Some a; audioContext := Some ctx;
                      buffer := Some b' |} s in
        set_requests
          (requests s ++
             [{| req_samples := b'; req_sampleRate := sampleRate ctx;
                 req_powerThreshold := powerThreshold props;
                 req_clarityThreshold := clarityThreshold props;
                 req_controller := has_controller |}]) s
    | _, _, _ => s
    end.

(** [updatePitch] after its [await], on the worker's answer to [r]. *)
Definition updatePitch_resume (r : Request) (frequency clarity' : float)
    (s : State) : State :=
  let s :=
    if JS.gt frequency 0 then
      let s := set_display (Some frequency) (Some clarity') s in
      let '(note, octave) := freqToNote frequency in
      let color := colorMap note in
      let randomNum := octave in
      set_timeouts
        (timeouts s ++
           [{| to_color := color; to_count := randomNum;
               to_controller := req_controller r |}]) s
    else set_display None None s in
  set_pendingRef false s.

(** [setupConnection], an async function: its promise is resolved or
    rejected.  The worker may reject [createDetector];
    [new Float32Array(windowSize)] throws a RangeError for a negative
    length, and where the host cannot allocate; each call into the audio
    host may throw.  [stop] names the call that fails, if one does.  The
    fields of [pitchSetupRef.current] are assigned one by one, so those
    assigned before a throw stay assigned; an analyser whose [fftSize]
    setter threw keeps the default size. *)
Definition setupConnection (stop : option HostCall) (rate : float) (s : State)
    : Completion :=
  if fails stop CreateDetector then Rejected s
  else if (windowSize props <? 0)%Z || fails stop NewFloat32Array
  then Rejected s
  else
    let s := set_buffer (replicate (Z.to_nat (windowSize props)) 0%float) s in
    if fails stop NewAudioContext then Rejected s
    else
      let s := set_audioContext {| sampleRate := rate |} s in
      if fails stop CreateMediaStreamSource || fails stop CreateAnalyser
      then Rejected s
      else
        let s := set_analyser {| fftSize := defaultFftSize |} s in
        if fails stop SetFftSize then Rejected s
        else
          let s := set_analyser {| fftSize := windowSize props |} s in
          if fails stop Connect then Rejected s else Resolved s.

(** [renderFrame] of the effect run [i]. *)
Definition renderFrame (i : nat) (input : list float) (s : State) : State :=
  match loops s !! i with
  | None => s
  | Some l =>
      if cancelRender l
      then set_loops (<[i := set_phase Stopped l]> (loops s)) s
      else
        let s := set_loops (<[i := set_phase Requested l]> (loops s)) s in
        updatePitch (loop_controller l) input s
  end.

(** The async function that the effect run [i] starts:
    [await setupConnection(); renderFrame();].  When the setup is rejected
    so is this function, before it has called [renderFrame]. *)
Definition startLoop (i : nat) (input : list float) (c : Completion) : State :=
  match c with
  | Resolved s => renderFrame i input s
  | Rejected s => set_loops (alter (set_phase Failed) i (loops s)) s
  end.

(** The cleanup of the effect run that is mounted, the last one. *)
Definition cleanup (s : State) : State :=
  set_loops (alter (set_cancelRender true) (length (loops s) - 1) (loops s)) s.

Inductive Event :=
| Enable
| Disable
| ControllerReady
| SetupDone (i : nat) (rate : float) (input : list float)
| AnimationFrame (i : nat) (input : list float)
| PitchResolved (k : nat) (frequency clarity' : float)
| PitchRejected (k : nat)
| TimeoutFires (k : nat)
| IntervalFires (t : positive)
| SketchFrame
| TreeTeardown
| SetupFails (i : nat) (stop : HostCall) (rate : float).

(** One turn of the event loop.
    - [Enable]: the effect runs with [enabled] true, after the cleanup of
      the run before it.  [Disable]: only that cleanup runs.
    - [ControllerReady]: the animation hands its controller to the hook.
    - [SetupDone i]: [setupConnection] of run [i] ends with no call
      failing in the host, and if it did not throw by itself
      [renderFrame] is called for the first time.  [SetupFails i stop]: it
      ends at the call [stop], which fails.
    - [AnimationFrame i]: the frame callback that run [i] requested.
    - [PitchResolved k], [PitchRejected k]: the worker settles request [k].
    - [TimeoutFires k]: the delayed flight trigger [k] runs.
    - [IntervalFires], [SketchFrame], [TreeTeardown]: the animation's
      timer, its frame, and its unmount. *)
Definition step (s : State) (e : Event) : State :=
  match e with
  | Enable =>
      let s := cleanup s in
      set_loops
        (loops s ++
           [{| cancelRender := false; phase := SettingUp;
               loop_controller := controller s |}]) s
  | Disable => cleanup s
  | ControllerReady => set_controller true s
  | SetupDone i rate input =>
      match loops s !! i with
      | Some l =>
          match phase l with
          | SettingUp => startLoop i input (setupConnection None rate s)
          | _ => s
          end
      | None => s
      end
  | SetupFails i stop rate =>
      match loops s !! i with
      | Some l =>
          match phase l with
          | SettingUp => startLoop i [] (setupConnection (Some stop) rate s)
          | _ => s
          end
      | None => s
      end
  | AnimationFrame i input =>
      match loops s !! i with
      | Some l =>
          match phase l with
          | Requested => renderFrame i input s
          | _ => s
          end
      | None => s
      end
  | PitchResolved k frequency clarity' =>
      match requests s !! k with
      | Some r =>
          updatePitch_resume r frequency clarity'
            (set_requests (delete k (requests s)) s)
      | None => s
      end
  | PitchRejected k => set_requests (delete k (requests s)) s
  | TimeoutFires k =>
      match timeouts s !! k with
      | Some t =>
          hook_startRandomFlight (to_controller t) (to_color t) (to_count t)
            (set_timeouts (delete k (timeouts s)) s)
      | None => s
      end
  | IntervalFires t =>
      set_sketch (TreeAnimation.step p m (sketch s) (TreeAnimation.Interval t)) s
  | SketchFrame =>
      set_sketch (TreeAnimation.step p m (sketch s) TreeAnimation.Frame) s
  | TreeTeardown =>
      set_sketch (TreeAnimation.step p m (sketch s) TreeAnimation.Teardown) s
  end.

Definition run (s : State) (tr : list Event) : State := fold_left step tr s.

(** The component as mounted: nothing displayed, nothing pending, an empty
    [pitchSetupRef], no controller yet, and the sketch after its setup. *)
Definition init : State :=
  {| freq := None; clarity := None; pendingRef := false;
     pitchSetupRef := {| analyser := None; audioContext := None; buffer := None |};
     controller := false; loops := []; requests := []; timeouts := [];
     sketch := TreeAnimation.setup p |}.


Definition isEnable (e : Event) : bool :=
  match e with Enable => true | _ => false end.

Definition isTimeoutFires (e : Event) : bool :=
  match e with TimeoutFires _ => true | _ => false end.

Definition isTreeTeardown (e : Event) : bool :=
  match e with TreeTeardown => true | _ => false end.

End Component.

Arguments setupConnection : simpl never.
Arguments startLoop : simpl never.

(** At most one request is in flight, and none unless [pendingRef] is set. *)
Definition serialized (s : State) : Prop :=
  length (requests s) ≤ 1 ∧ (pendingRef s = false → requests s = []).

(** Every run of the effect but the last has been cleaned up. *)
Definition olderLoopsCancelled (s : State) : Prop :=
  ∀ i l, loops s !! i = Some l → S i < length (loops s) → cancelRender l = true.

(** The scheduler is stuck: the flag is set and no request is in flight
    whose answer could clear it. *)
Definition stuck (s : State) : Prop :=
  pendingRef s = true ∧ requests s = [].

Definition notReady (ps : PitchSetup) : Prop :=
  analyser ps = None ∨ buffer ps = None ∨ audioContext ps = None.

Definition isControllerReady (e : Event) : bool :=
  match e with ControllerReady => true | _ => false end.

(** The runs of the effect whose frame loop has not been cancelled. *)
Definition liveLoops (s : State) : list Loop :=
  filter (fun l => cancelRender l = false) (loops s).

(** No closure of the component has seen a controller. *)
Definition noController (s : State) : Prop :=
  controller s = false
  ∧ Forall (fun l => loop_controller l = false) (loops s)
  ∧ Forall (fun r => req_controller r = false) (requests s)
  ∧ Forall (fun t => to_controller t = false) (timeouts s).

(** A run of the effect that has requested a frame finds the capture
    context filled in. *)
Definition startedReady (s : State) : Prop :=
  ∀ i l, loops s !! i = Some l → phase l = Requested →
         ¬ notReady (pitchSetupRef s).

(** Frequency and clarity are shown together, and a frequency that is
    shown is positive. *)
Definition displayConsistent (s : State) : Prop :=
  match freq s, clarity s with
  | None, None => True
  | Some f, Some _ => JS.gt f 0 = true
  | _, _ => False
  end.

(** Every delayed trigger and every live timer carries a colour name of
    the leaf palette. *)
Definition paletteColours (s : State) : Prop :=
  Forall (fun t => to_color t ∈ TreeAnimation.colors) (timeouts s)
  ∧ ∀ t color count,
      TreeAnimation.intervals (sketch s) !! t = Some (color, count) →
      color ∈ TreeAnimation.colors.

End PitchMonitor.

(** ** The note mapper of the circle chart's utilities *)

Module CircleChartUtils.

Import PitchMonitor.

(** The chromatic sequence, starting at C. *)
Definition NOTES : list NoteName := [C; Db; D; Eb; E; F; Gb; G; Ab; A; Bb; B].

(** Nearest integer, a half rounding up, as [Math.round] does. *)
Definition round (x : R) : Z := Int_part (x + / 2).

Definition log2 (x : R) : R := (ln x / ln 2)%R.

(** Semitones between [freq] and A4 = 440 Hz. *)
Definition semitoneOffset (freq : R) : Z := round (12 * log2 (freq / 440)).

Definition octaveOf (offset : Z) : Z := (4 + (offset + 9) / 12)%Z.

(** Modelled from the spec: [freqToNote] itself is not among the sources
    (the component imports it).  This is the rule of the specification
    word for word: the name is entry [offset mod 12] of the sequence that
    starts at C, the octave is [4 + floor((offset + 9) / 12)]. *)
Definition freqToNote_indexed_by_offset (freq : R) : NoteName * Z :=
  let offset := semitoneOffset freq in
  (nth (Z.to_nat (offset mod 12)) NOTES C, octaveOf offset).

(** Modelled from the spec: the same rule with the name counted from C as
    the octave is, entry [(offset + 9) mod 12]; A4 itself is entry 9.  This
    is the mapping the specification's examples describe. *)
Definition freqToNote (freq : R) : NoteName * Z :=
  let offset := semitoneOffset freq in
  (nth (Z.to_nat ((offset + 9) mod 12)) NOTES C, octaveOf offset).

(** The frequency [n] semitones away from A4. *)
Definition semitone (n : Z) : R := (440 * Rpower 2 (IZR n / 12))%R.

(** What the orchestrator derives from a detected frequency: the note's
    palette colour and the octave it passes on as the bird count. *)
Definition noteColor (note : NoteName * Z) : string * Z :=
  (colorMap (fst note), snd note).

End CircleChartUtils.

(** ** A concrete environment for examples *)

Module Demo.

(** A 700 x 700 canvas.  Cosine and sine are their Taylor polynomials of
    low degree; the draws cycle through the leaves and the ranges. *)
Definition p : TreeAnimation.p5 :=
  {| TreeAnimation.PI := 3.141592653589793%float;
     TreeAnimation.cos := fun a => (1 - a * a / 2 + a * a * a * a / 24)%float;
     TreeAnimation.sin := fun a => (a - a * a * a / 6 + a * a * a * a * a / 120)%float;
     TreeAnimation.width := 700%float;
     TreeAnimation.height := 700%float;
     TreeAnimation.random_index := fun k => k;
     TreeAnimation.random_range := fun k lo hi => ((lo + hi) / 2)%float |}.

Definition math : JS.Math :=
  {| JS.Math_cos := TreeAnimation.cos p; JS.Math_sin := TreeAnimation.sin p |}.

Definition props : PitchMonitor.PitchProps :=
  {| PitchMonitor.detectorName := "mcleod";
     PitchMonitor.windowSize := 4;
     PitchMonitor.powerThreshold := 0.15%float;
     PitchMonitor.clarityThreshold := 0.6%float |}.

(** A note mapper that knows one note: every frequency is A4. *)
Definition freqToNote (f : float) : PitchMonitor.NoteName * Z :=
  (PitchMonitor.A, 4%Z).

Definition leaf (name : string) (used : bool) : TreeAnimation.Leaf :=
  {| TreeAnimation.leaf_x := 350%float; TreeAnimation.leaf_y := 100%float;
     TreeAnimation.leaf_size := 12%float;
     TreeAnimation.leaf_color := [117; 117; 117]%Z;
     TreeAnimation.colorName := name; TreeAnimation.isUsed := used |}.

(** A small sketch: three leaves, idle, no campaign. *)
Definition sketch : TreeAnimation.Sketch :=
  {| TreeAnimation.leaves := [leaf "ash" false; leaf "pink" false; leaf "ash" true];
     TreeAnimation.birds := [];
     TreeAnimation.flightInterval := None;
     TreeAnimation.looping := false;
     TreeAnimation.intervals := ∅;
     TreeAnimation.nextTimer := 1%positive;
     TreeAnimation.draws := 0 |}.

End Demo.

(** * Properties *)

(** ** Loops that push onto an array *)

Section Folds.

Context {A B : Type}.

Lemma fold_left_pointwise (f f' : A → B → A) (l : list B) : ∀ acc,
  (∀ acc i, i ∈ l → f acc i = f' acc i) →
  fold_left f l acc = fold_left f' l acc.
Proof.
  induction l as [|i l IH]; intros acc H; simpl; [reflexivity|].
  rewrite H by left. apply IH. intros acc' j Hj. apply H. by right.
Qed.

Lemma fold_left_pushes (f : list A → B → list A) (g : B → list A) (l : list B) :
  (∀ acc i, f acc i = acc ++ g i) →
  ∀ acc, fold_left f l acc = acc ++ flat_map g l.
Proof.
  intros H. induction l as [|i l IH]; intros acc; simpl.
  - by rewrite app_nil_r.
  - by rewrite IH, H, <- app_assoc.
Qed.

Lemma flat_map_length_const (g : B → list A) (c : nat) (l : list B) :
  (∀ i, length (g i) = c) → length (flat_map g l) = length l * c.
Proof.
  intros H. induction l as [|i l IH]; simpl; [reflexivity|].
  rewrite length_app, H, IH. lia.
Qed.

End Folds.

(** ** Leaf positions *)

Section LeafPositions.

Import TreeAnimation.

Context (p : p5).

Lemma length_seqZ_branchCount depth :
  length (seqZ 0 (branchCount depth)) = Z.to_nat (branchCount depth).
Proof. by rewrite length_seqZ. Qed.

(** The recursion only ever appends to the array it is given. *)
Lemma generateLeafPositions_rec_app fuel : ∀ x y len angle depth positions,
  generateLeafPositions_rec fuel p x y len angle depth positions
  = positions ++ generateLeafPositions_rec fuel p x y len angle depth [].
Proof.
  induction fuel as [|fuel IH]; intros x y len angle depth positions; simpl;
    destruct (depth <=? 1)%Z; try reflexivity.
  - by rewrite app_nil_r.
  - rewrite !(fold_left_pushes _ (pushedBy p fuel x y len angle depth));
      [reflexivity | intros acc i; unfold pushedBy; simpl..];
      by rewrite IH, <- app_assoc.
Qed.

Lemma generateLeafPositions_rec_S fuel x y len angle depth positions :
  (1 < depth)%Z →
  generateLeafPositions_rec (S fuel) p x y len angle depth positions
  = positions
    ++ flat_map (pushedBy p fuel x y len angle depth) (seqZ 0 (branchCount depth)).
Proof.
  intros Hd. simpl. destruct (Z.leb_spec depth 1); [lia|].
  apply fold_left_pushes. intros acc i. unfold pushedBy. simpl.
  by rewrite generateLeafPositions_rec_app, <- app_assoc.
Qed.

Lemma generateLeafPositions_rec_length fuel : ∀ x y len angle depth positions,
  length (generateLeafPositions_rec fuel p x y len angle depth positions)
  = length positions + slotCount_rec fuel depth.
Proof.
  induction fuel as [|fuel IH]; intros x y len angle depth positions.
  - simpl. destruct (depth <=? 1)%Z; rewrite ?length_app; simpl; lia.
  - destruct (Z.leb_spec depth 1) as [Hd|Hd].
    + simpl. destruct (Z.leb_spec depth 1); [|lia].
      rewrite length_app. simpl. lia.
    + rewrite generateLeafPositions_rec_S, length_app by done.
      rewrite (flat_map_length_const _ (1 + slotCount_rec fuel (depth - 1))).
      * rewrite length_seqZ_branchCount. simpl.
        destruct (Z.leb_spec depth 1); [lia|]. lia.
      * intros i. unfold pushedBy. simpl. by rewrite IH.
Qed.

(** Once [depth - 1] levels of fuel are there, more fuel changes nothing:
    the recursion never runs out. *)
Lemma generateLeafPositions_rec_fuel fuel : ∀ fuel' x y len angle depth positions,
  Z.to_nat depth ≤ S fuel → Z.to_nat depth ≤ S fuel' →
  generateLeafPositions_rec fuel p x y len angle depth positions
  = generateLeafPositions_rec fuel' p x y len angle depth positions.
Proof.
  induction fuel as [|fuel IH]; intros fuel' x y len angle depth positions H H'.
  - destruct fuel'; simpl; destruct (Z.leb_spec depth 1); try reflexivity; lia.
  - destruct fuel' as [|fuel']; simpl; destruct (Z.leb_spec depth 1);
      try reflexivity; try lia.
    apply fold_left_pointwise. intros acc i _. simpl. apply IH; lia.
Qed.

Lemma slotCount_rec_fuel fuel : ∀ fuel' depth,
  Z.to_nat depth ≤ S fuel → Z.to_nat depth ≤ S fuel' →
  slotCount_rec fuel depth = slotCount_rec fuel' depth.
Proof.
  induction fuel as [|fuel IH]; intros fuel' depth H H'.
  - destruct fuel'; simpl; destruct (Z.leb_spec depth 1); try reflexivity; lia.
  - destruct fuel' as [|fuel']; simpl; destruct (Z.leb_spec depth 1);
      try reflexivity; try lia.
    rewrite (IH fuel'); try reflexivity; lia.
Qed.

(** The body of [generateLeafPositions] for [depth > 1], fuel set aside:
    each branch end is pushed, then the recursion continues from it. *)
Lemma generateLeafPositions_unfold x y len angle depth positions :
  (1 < depth)%Z →
  generateLeafPositions p x y len angle depth positions
  = fold_left
      (fun positions i =>
         let e := endPoint p x y len angle depth i in
         generateLeafPositions p (pos_x e) (pos_y e) (len * 0.65)%float
           (newAngle p angle depth i) (depth - 1) (positions ++ [e]))
      (seqZ 0 (branchCount depth)) positions.
Proof.
  intros Hd. unfold generateLeafPositions.
  destruct (Z.to_nat depth) as [|fuel] eqn:Hf; [lia|].
  simpl. destruct (Z.leb_spec depth 1); [lia|].
  apply fold_left_pointwise. intros acc i _. simpl.
  apply generateLeafPositions_rec_fuel; lia.
Qed.

Lemma slotCount_unfold depth :
  (1 < depth)%Z →
  slotCount depth = Z.to_nat (branchCount depth) * (1 + slotCount (depth - 1)).
Proof.
  intros Hd. unfold slotCount.
  destruct (Z.to_nat depth) as [|fuel] eqn:Hf; [lia|].
  simpl. destruct (Z.leb_spec depth 1); [lia|].
  rewrite (slotCount_rec_fuel fuel (Z.to_nat (depth - 1))); [reflexivity | lia..].
Qed.

Lemma endPoint_recorded x y len angle depth positions i :
  (1 < depth)%Z → (0 <= i < branchCount depth)%Z →
  endPoint p x y len angle depth i
  ∈ generateLeafPositions p x y len angle depth positions.
Proof.
  intros Hd Hi. unfold generateLeafPositions.
  destruct (Z.to_nat depth) as [|fuel] eqn:Hf; [lia|].
  rewrite generateLeafPositions_rec_S by done.
  apply elem_of_app. right. apply list_elem_of_In, in_flat_map.
  exists i. split.
  - apply list_elem_of_In, elem_of_seqZ. lia.
  - unfold pushedBy. simpl. by left.
Qed.

(** C8, as amended.  [generateLeafPositions] appends [slotCount depth]
    entries whatever the start point, length, angle and sketch are.  With
    remaining depth at most 1 it records the point it is at.  With more
    depth left it records the end of every branch before it recurses from
    there, so slots lie at the branch ends of every level; the count obeys
    [slotCount depth = branchCount depth * (1 + slotCount (depth - 1))] and
    is 210 for the depth the tree is generated with. *)
Theorem leaf_slots_at_every_branch_end x y len angle depth positions :
  let out := generateLeafPositions p x y len angle depth positions in
  length out = length positions + slotCount depth
  ∧ ((depth <= 1)%Z → out = positions ++ [{| pos_x := x; pos_y := y |}])
  ∧ ((1 < depth)%Z →
       out = fold_left
               (fun positions i =>
                  let e := endPoint p x y len angle depth i in
                  generateLeafPositions p (pos_x e) (pos_y e)
                    (len * 0.65)%float (newAngle p angle depth i)
                    (depth - 1) (positions ++ [e]))
               (seqZ 0 (branchCount depth)) positions
       ∧ (∀ i, (0 <= i < branchCount depth)%Z →
               endPoint p x y len angle depth i ∈ out)
       ∧ slotCount depth
         = Z.to_nat (branchCount depth) * (1 + slotCount (depth - 1)))
  ∧ (∀ fuel, Z.to_nat depth ≤ fuel →
       generateLeafPositions_rec fuel p x y len angle depth positions = out)
  ∧ slotCount 6 = 210.
Proof.
  cbv zeta. split; [|split; [|split; [|split]]].
  - apply generateLeafPositions_rec_length.
  - intros Hd. unfold generateLeafPositions.
    destruct (Z.to_nat depth); simpl; by destruct (Z.leb_spec depth 1); [|lia].
  - intros Hd. split; [|split].
    + by apply generateLeafPositions_unfold.
    + intros i Hi. by apply endPoint_recorded.
    + by apply slotCount_unfold.
  - intros fuel Hf. apply generateLeafPositions_rec_fuel; lia.
  - reflexivity.
Qed.

End LeafPositions.

(** C8, as stated, fails on the tree the sketch generates (depth 6 from the
    top of the trunk): 210 slots are recorded, against the 72 points at
    which the recursion terminates. *)
Lemma leaf_slots_not_only_terminal :
  let recorded :=
    TreeAnimation.generateLeafPositions Demo.p 350 440 126
      (- TreeAnimation.PI Demo.p / 2)%float 6 [] in
  let terminal :=
    TreeAnimation.terminalEndpoints Demo.p 350 440 126
      (- TreeAnimation.PI Demo.p / 2)%float 6 [] in
  recorded ≠ terminal ∧ length recorded = 210 ∧ length terminal = 72.
Proof.
  cbv zeta. split; [|split]; [| by vm_compute..].
  intros E. apply (f_equal length) in E. vm_compute in E. discriminate.
Qed.

(** ** Spawning birds *)

Section Fly.

Import TreeAnimation.

Context (p : p5).

Lemma NoDup_delete_lookup {X} (l : list X) i x :
  NoDup l → l !! i = Some x → (x ∉ delete i l) ∧ NoDup (delete i l).
Proof.
  intros Hnd Hi. split.
  2: { eapply sublist_NoDup; [done | apply sublist_delete]. }
  rewrite <- (take_drop_middle l i x Hi) in Hnd.
  apply NoDup_app in Hnd as (_ & Hl & Hr). apply NoDup_cons in Hr as [Hr _].
  rewrite delete_take_drop. intros H. apply elem_of_app in H as [H|H]; [|done].
  apply (Hl x H). by left.
Qed.

Lemma lookup_markAll sel : ∀ ls i,
  markAll sel ls !! i
  = if decide (i ∈ sel) then markUsed <$> ls !! i else ls !! i.
Proof.
  induction sel as [|j sel IH]; intros ls i.
  - simpl. destruct (decide (i ∈ [])) as [H|_]; [by inversion H | done].
  - change (markAll (j :: sel) ls) with (markAll sel (alter markUsed j ls)).
    rewrite IH. destruct (decide (j = i)) as [->|Hne].
    + rewrite list_lookup_alter_eq.
      destruct (decide (i ∈ i :: sel)) as [_|H]; [|exfalso; apply H; by left].
      destruct (decide (i ∈ sel)); [|done].
      by destruct (ls !! i).
    + rewrite list_lookup_alter_ne by done.
      destruct (decide (i ∈ sel)) as [H|H];
        destruct (decide (i ∈ j :: sel)) as [H'|H']; try done.
      * exfalso. apply H'. by right.
      * apply elem_of_cons in H' as [->|?]; done.
Qed.

(** The loop of [fly]: with [n] at most the number of references left, it
    returns, having taken [n] distinct references out of [available]. *)
Lemma flyLoop_spec n : ∀ available s,
  n ≤ length available → NoDup available →
  (∀ i, i ∈ available → i < length (leaves s)) →
  ∃ s' sel newBirds,
    flyLoop p n available s = Returned s'
    ∧ length sel = n ∧ NoDup sel ∧ (∀ i, i ∈ sel → i ∈ available)
    ∧ leaves s' = markAll sel (leaves s)
    ∧ birds s' = birds s ++ newBirds
    ∧ Forall2 (bornAt (leaves s)) newBirds sel
    ∧ flightInterval s' = flightInterval s ∧ looping s' = looping s
    ∧ intervals s' = intervals s ∧ nextTimer s' = nextTimer s.
Proof.
  induction n as [|n IH]; intros available s Hn Hnd Hlt.
  - exists s, [], []. simpl. rewrite app_nil_r.
    repeat split; try done; [constructor | intros i H; inversion H].
  - simpl.
    assert (floor_random p (draws s) (length available) < length available)
      as Hidx by (apply Nat.mod_upper_bound; lia).
    destruct (lookup_lt_is_Some_2 _ _ Hidx) as [ref Href]. rewrite Href.
    assert (ref ∈ available) as Hin by by eapply list_elem_of_lookup_2.
    destruct (lookup_lt_is_Some_2 _ _ (Hlt ref Hin)) as [leaf Hleaf].
    rewrite Hleaf.
    destruct (NoDup_delete_lookup _ _ _ Hnd Href) as [Hfresh Hnd'].
    pose (s1 := set_draws (3 + draws s)
                  (set_birds
                     (birds s
                      ++ [newBird p (S (draws s)) (leaf_x leaf) (leaf_y leaf)
                            (leaf_color leaf)])
                     (set_leaves (alter markUsed ref (leaves s)) s))).
    destruct (IH (delete (floor_random p (draws s) (length available)) available) s1)
      as (s' & sel & newBirds & Hrun & Hlen & Hsel & Hsub & Hleaves & Hbirds
          & Hborn & Hfi & Hlo & Hin' & Hnt); [| exact Hnd' | |].
    { rewrite length_delete by eauto. lia. }
    { intros i Hi. simpl. rewrite length_alter. apply Hlt.
      by eapply list_elem_of_delete_inv. }
    subst s1. simpl in *.
    exists s', (ref :: sel),
      (newBird p (S (draws s)) (leaf_x leaf) (leaf_y leaf) (leaf_color leaf)
         :: newBirds).
    rewrite Hrun. repeat split; try done.
    + simpl. by rewrite Hlen.
    + apply NoDup_cons. split; [|done]. intros H. apply Hfresh. by apply Hsub.
    + intros i [->|Hi]%elem_of_cons; [done|].
      eapply list_elem_of_delete_inv. by apply Hsub.
    + by rewrite Hbirds, <- app_assoc.
    + constructor.
      * by exists leaf.
      * eapply Forall2_impl; [exact Hborn|].
        intros b i (l & Hl & Hb). rewrite list_lookup_alter in Hl.
        destruct (decide (ref = i)) as [->|Hne]; [|by exists l].
        rewrite Hleaf in Hl. injection Hl as <-. by exists leaf.
Qed.

Lemma eligible_spec color l :
  eligible color l = true
  ↔ isUsed l = false ∧ (∀ c, color = Some c → colorName l = c).
Proof.
  unfold eligible. destruct (isUsed l); simpl; [split; [done | by intros []]|].
  destruct color as [c|]; [|split; [done | by intros _]].
  rewrite bool_decide_eq_true. split.
  - intros E. split; [done|]. by intros ? [= <-].
  - intros [_ H]. by apply H.
Qed.

Lemma availableLeaves_elem color ls i :
  i ∈ availableLeaves color ls
  ↔ ∃ l, ls !! i = Some l ∧ eligible color l = true.
Proof.
  unfold availableLeaves, eligibleAt. rewrite list_elem_of_filter, elem_of_seq.
  split.
  - intros [H _]. destruct (ls !! i) as [l|]; [by exists l | done].
  - intros (l & Hl & He). rewrite Hl. split; [done|].
    apply lookup_lt_Some in Hl. lia.
Qed.

Lemma NoDup_availableLeaves color ls : NoDup (availableLeaves color ls).
Proof. apply NoDup_filter, NoDup_seq. Qed.

(** The references [filter] returns are as many as the leaves that pass
    its test. *)
Lemma availableLeaves_from color (ls : list Leaf) : ∀ pre : list Leaf,
  length (filter (fun i => eligibleAt color (pre ++ ls) i = true)
            (seq (length pre) (length ls)))
  = length (filter (fun l => eligible color l = true) ls).
Proof.
  induction ls as [|l ls IH]; intros pre; [reflexivity|].
  simpl. specialize (IH (pre ++ [l])).
  rewrite <- app_assoc, length_app, Nat.add_1_r in IH. simpl in IH.
  assert (eligibleAt color (pre ++ l :: ls) (length pre) = eligible color l) as E.
  { unfold eligibleAt. by rewrite list_lookup_middle. }
  rewrite !filter_cons. rewrite E.
  destruct (decide (eligible color l = true)); simpl; by rewrite IH.
Qed.

Lemma length_availableLeaves color ls :
  length (availableLeaves color ls)
  = length (filter (fun l => eligible color l = true) ls).
Proof. apply (availableLeaves_from color ls []). Qed.

(** [fly] never throws, and it always leaves the sketch looping. *)
Lemma fly_returns color count s :
  ∃ s' sel newBirds,
    fly p color count s = Returned s'
    ∧ length sel
      = Z.to_nat (Z.min count
                    (Z.of_nat (length (availableLeaves color (leaves s)))))
    ∧ NoDup sel
    ∧ (∀ i, i ∈ sel → i ∈ availableLeaves color (leaves s))
    ∧ leaves s' = markAll sel (leaves s)
    ∧ birds s' = birds s ++ newBirds
    ∧ Forall2 (bornAt (leaves s)) newBirds sel
    ∧ flightInterval s' = flightInterval s ∧ looping s' = true
    ∧ intervals s' = intervals s ∧ nextTimer s' = nextTimer s.
Proof.
  unfold fly, numToFly.
  destruct (flyLoop_spec
              (Z.to_nat (Z.min count
                 (Z.of_nat (length (availableLeaves color (leaves s))))))
              (availableLeaves color (leaves s)) s)
    as (s' & sel & newBirds & Hrun & Hlen & Hsel & Hsub & Hleaves & Hbirds
        & Hborn & Hfi & Hlo & Hin & Hnt).
  { lia. }
  { apply NoDup_availableLeaves. }
  { intros i (l & Hl & _)%availableLeaves_elem. by eapply lookup_lt_Some. }
  rewrite Hrun.
  exists (if looping s' then s' else set_looping true s'), sel, newBirds.
  destruct (looping s') eqn:E; simpl; repeat split; done.
Qed.

(** C4, as amended.  A call [fly(color, count)] returns without an error.
    It creates [max(0, min(count, e))] birds, [e] being the number of
    leaves that are unused and of the given colour (of any colour when
    none is given): [min(count, e)] of them when the count is not
    negative, and none when it is.  The birds start at pairwise distinct
    leaves; each of these was unused and of the colour asked for before
    the call and is the same leaf with [isUsed] true after it; no other
    leaf changes. *)
Theorem fly_spawns_min_of_count_and_eligible color count s :
  let eligibleLeaves := filter (fun l => eligible color l = true) (leaves s) in
  ∃ s' sel newBirds,
    fly p color count s = Returned s'
    ∧ birds s' = birds s ++ newBirds
    ∧ Z.of_nat (length newBirds)
      = Z.max 0 (Z.min count (Z.of_nat (length eligibleLeaves)))
    ∧ length sel = length newBirds ∧ NoDup sel
    ∧ Forall2 (bornAt (leaves s)) newBirds sel
    ∧ (∀ i, i ∈ sel →
         ∃ l l', leaves s !! i = Some l
                 ∧ isUsed l = false ∧ (∀ c, color = Some c → colorName l = c)
                 ∧ leaves s' !! i = Some l'
                 ∧ isUsed l' = true
                 ∧ leaf_x l' = leaf_x l ∧ leaf_y l' = leaf_y l
                 ∧ leaf_size l' = leaf_size l ∧ leaf_color l' = leaf_color l
                 ∧ colorName l' = colorName l)
    ∧ (∀ i, i ∉ sel → leaves s' !! i = leaves s !! i).
Proof.
  cbv zeta.
  destruct (fly_returns color count s)
    as (s' & sel & newBirds & Hrun & Hlen & Hsel & Hsub & Hleaves & Hbirds
        & Hborn & _).
  rewrite length_availableLeaves in Hlen.
  pose proof (Forall2_length _ _ _ Hborn) as Hnb.
  exists s', sel, newBirds.
  split; [done|]. split; [done|]. split; [lia|]. split; [done|].
  split; [done|]. split; [done|]. split.
  - intros i Hi. destruct (proj1 (availableLeaves_elem _ _ _) (Hsub i Hi))
      as (l & Hl & [Hu Hcol]%eligible_spec).
    exists l, (markUsed l). split; [done|]. split; [done|]. split; [done|].
    split; [|by repeat split].
    rewrite Hleaves, lookup_markAll, Hl. by destruct (decide (i ∈ sel)).
  - intros i Hi. rewrite Hleaves, lookup_markAll.
    by destruct (decide (i ∈ sel)).
Qed.

End Fly.

(** [fly("ash", 2)] on the small sketch, which has one unused ash leaf. *)
Lemma fly_spawns_example :
  ∃ s' sel newBirds,
    TreeAnimation.fly Demo.p (Some "ash") 2 Demo.sketch
    = TreeAnimation.Returned s'
    ∧ TreeAnimation.birds s' = [] ++ newBirds
    ∧ Z.of_nat (length newBirds) = 1%Z
    ∧ length sel = length newBirds ∧ NoDup sel
    ∧ Forall2 (TreeAnimation.bornAt (TreeAnimation.leaves Demo.sketch))
        newBirds sel
    ∧ (∀ i, i ∈ sel →
         ∃ l l', TreeAnimation.leaves Demo.sketch !! i = Some l
                 ∧ TreeAnimation.isUsed l = false
                 ∧ (∀ c, Some "ash" = Some c → TreeAnimation.colorName l = c)
                 ∧ TreeAnimation.leaves s' !! i = Some l'
                 ∧ TreeAnimation.isUsed l' = true
                 ∧ TreeAnimation.leaf_x l' = TreeAnimation.leaf_x l
                 ∧ TreeAnimation.leaf_y l' = TreeAnimation.leaf_y l
                 ∧ TreeAnimation.leaf_size l' = TreeAnimation.leaf_size l
                 ∧ TreeAnimation.leaf_color l' = TreeAnimation.leaf_color l
                 ∧ TreeAnimation.colorName l' = TreeAnimation.colorName l)
    ∧ (∀ i, i ∉ sel →
         TreeAnimation.leaves s' !! i
         = TreeAnimation.leaves Demo.sketch !! i).
Proof.
  exact (fly_spawns_min_of_count_and_eligible Demo.p (Some "ash") 2 Demo.sketch).
Defined.

(** [fly("ash", -3)] on the small sketch: the call returns and creates no
    bird, where [min(count, e)] is -3. *)
Lemma negative_count_spawns_no_bird :
  let s := Demo.sketch in
  let s' := TreeAnimation.state_of (TreeAnimation.fly Demo.p (Some "ash") (-3) s) in
  let e :=
    length (filter (fun l => TreeAnimation.eligible (Some "ash") l = true)
              (TreeAnimation.leaves s)) in
  TreeAnimation.fly Demo.p (Some "ash") (-3) s = TreeAnimation.Returned s'
  ∧ e = 1
  ∧ length (TreeAnimation.birds s') - length (TreeAnimation.birds s) = 0
  ∧ Z.of_nat (length (TreeAnimation.birds s') - length (TreeAnimation.birds s))
    ≠ Z.min (-3) (Z.of_nat e).
Proof. cbv zeta. repeat split; vm_compute; congruence. Qed.

(** ** The sketch over time *)

Section Sketch.

Import TreeAnimation.

Context (p : p5) (m : JS.Math).

Lemma laterLeaf_refl l : laterLeaf l l.
Proof. by repeat split. Qed.

Lemma laterLeaf_trans l1 l2 l3 : laterLeaf l1 l2 → laterLeaf l2 l3 → laterLeaf l1 l3.
Proof.
  intros (? & ? & ? & ? & ? & ?) (? & ? & ? & ? & ? & ?).
  repeat split; try congruence. auto.
Qed.

Lemma laterLeaf_markUsed l : laterLeaf l (markUsed l).
Proof. by repeat split. Qed.

Lemma Forall2_laterLeaf_refl ls : Forall2 laterLeaf ls ls.
Proof. induction ls; constructor; auto using laterLeaf_refl. Qed.

Lemma Forall2_laterLeaf_trans ls1 : ∀ ls2 ls3,
  Forall2 laterLeaf ls1 ls2 → Forall2 laterLeaf ls2 ls3 →
  Forall2 laterLeaf ls1 ls3.
Proof.
  induction ls1 as [|l ls1 IH]; intros ls2 ls3 H12 H23.
  - inversion H12; subst. inversion H23; subst. constructor.
  - inversion H12; subst. inversion H23; subst. constructor.
    + by eapply laterLeaf_trans.
    + by eapply IH.
Qed.

Lemma Forall2_laterLeaf_alter ls : ∀ i,
  Forall2 laterLeaf ls (alter markUsed i ls).
Proof.
  induction ls as [|l ls IH]; intros [|i]; try constructor;
    auto using laterLeaf_refl, laterLeaf_markUsed, Forall2_laterLeaf_refl.
Qed.

Lemma Forall2_laterLeaf_markAll sel : ∀ ls,
  Forall2 laterLeaf ls (markAll sel ls).
Proof.
  induction sel as [|i sel IH]; intros ls; [apply Forall2_laterLeaf_refl|].
  change (markAll (i :: sel) ls) with (markAll sel (alter markUsed i ls)).
  eapply Forall2_laterLeaf_trans; [apply Forall2_laterLeaf_alter | apply IH].
Qed.

Lemma usedCount_mono ls ls' :
  Forall2 laterLeaf ls ls' → usedCount ls ≤ usedCount ls'.
Proof.
  unfold usedCount. induction 1 as [|l l' ls ls' Hl _ IH]; [done|].
  rewrite !filter_cons. destruct Hl as (_ & _ & _ & _ & _ & Hu).
  destruct (decide (isUsed l = true)) as [E|E].
  - rewrite decide_True by auto. simpl. lia.
  - destruct (decide (isUsed l' = true)); simpl; lia.
Qed.

Lemma usedCount_le_length ls : usedCount ls ≤ length ls.
Proof. apply length_filter. Qed.

(** [draw] touches the birds and the looping flag, nothing else. *)
Lemma draw_fields s :
  leaves (draw p m s) = leaves s
  ∧ flightInterval (draw p m s) = flightInterval s
  ∧ intervals (draw p m s) = intervals s
  ∧ nextTimer (draw p m s) = nextTimer s
  ∧ looping (draw p m s)
    = (if (length (birds (draw p m s)) =? 0)%nat then false else looping s).
Proof.
  unfold draw.
  destruct (length (drawBirds p m (length (birds s)) (birds s)) =? 0)%nat eqn:E;
    simpl; by rewrite E.
Qed.

Lemma fly_fields color count s :
  let s' := state_of (fly p color count s) in
  Forall2 laterLeaf (leaves s) (leaves s')
  ∧ flightInterval s' = flightInterval s
  ∧ intervals s' = intervals s
  ∧ nextTimer s' = nextTimer s
  ∧ looping s' = true.
Proof.
  destruct (fly_returns p color count s)
    as (s' & sel & newBirds & -> & _ & _ & _ & Hleaves & _ & _ & ? & ? & ? & ?).
  simpl. rewrite Hleaves. auto using Forall2_laterLeaf_markAll.
Qed.

Lemma step_leaves s e : Forall2 laterLeaf (leaves s) (leaves (step p m s e)).
Proof.
  destruct e as [color count|color count| |t| |]; simpl.
  - apply fly_fields.
  - unfold startRandomFlight. destruct (flightInterval s); simpl;
      apply Forall2_laterLeaf_refl.
  - unfold cancelFlight. destruct (flightInterval s); simpl;
      apply Forall2_laterLeaf_refl.
  - destruct (intervals s !! t) as [[color count]|];
      [apply fly_fields | apply Forall2_laterLeaf_refl].
  - destruct (looping s); [|apply Forall2_laterLeaf_refl].
    destruct (draw_fields s) as [-> _]. apply Forall2_laterLeaf_refl.
  - unfold teardown. destruct (flightInterval s); simpl;
      apply Forall2_laterLeaf_refl.
Qed.

Lemma run_leaves tr : ∀ s, Forall2 laterLeaf (leaves s) (leaves (run p m s tr)).
Proof.
  induction tr as [|e tr IH]; intros s; [apply Forall2_laterLeaf_refl|].
  eapply Forall2_laterLeaf_trans; [apply (step_leaves s e) | apply IH].
Qed.

(** [generateLeaves] pushes one unused leaf per position and leaves the
    timers alone. *)
Lemma generateLeaves_fold positions : ∀ s,
  let s' := fold_left (pushLeaf p) positions s in
  length (leaves s') = length (leaves s) + length positions
  ∧ usedCount (leaves s') = usedCount (leaves s)
  ∧ flightInterval s' = flightInterval s
  ∧ intervals s' = intervals s
  ∧ nextTimer s' = nextTimer s
  ∧ looping s' = looping s
  ∧ birds s' = birds s.
Proof.
  induction positions as [|pos positions IH]; intros s; simpl.
  - repeat split; lia.
  - destruct (IH (pushLeaf p s pos)) as (-> & -> & -> & -> & -> & -> & ->).
    simpl. rewrite length_app. simpl. unfold usedCount.
    rewrite filter_app, length_app. simpl. repeat split; lia.
Qed.

Lemma setup_fields :
  length (leaves (setup p)) = slotCount 6
  ∧ usedCount (leaves (setup p)) = 0
  ∧ flightInterval (setup p) = None
  ∧ intervals (setup p) = ∅
  ∧ looping (setup p) = false
  ∧ birds (setup p) = [].
Proof.
  unfold setup, generateLeaves.
  match goal with |- context [fold_left _ ?ps ?s] =>
    destruct (generateLeaves_fold ps s) as (-> & -> & -> & -> & _ & -> & ->);
    pose proof (generateLeafPositions_rec_length p (Z.to_nat 6)
                  (width p / 2)%float (height p - 260)%float 126
                  (- PI p / 2)%float 6 []) as Hlen
  end.
  unfold generateLeafPositions. rewrite Hlen. by repeat split.
Qed.

(** C5.  Along every sequence of calls, timer firings and frames, the leaf
    pool keeps its size; every leaf keeps its slot, size and colour, and
    once it is used it stays used; the number of used leaves does not
    decrease and never exceeds the size of the pool.  The pool is made by
    [setup], once, with no leaf used. *)
Theorem leaf_pool_fixed_and_used_only_grows s tr :
  let s' := run p m s tr in
  length (leaves s') = length (leaves s)
  ∧ Forall2 laterLeaf (leaves s) (leaves s')
  ∧ usedCount (leaves s) ≤ usedCount (leaves s')
  ∧ usedCount (leaves s') ≤ length (leaves s)
  ∧ length (leaves (run p m (setup p) tr)) = slotCount 6
  ∧ usedCount (leaves (setup p)) = 0.
Proof.
  cbv zeta. pose proof (run_leaves tr s) as H.
  pose proof (Forall2_length _ _ _ H) as Hlen.
  split; [done|]. split; [done|]. split; [by apply usedCount_mono|].
  split; [rewrite Hlen; apply usedCount_le_length|]. split.
  - rewrite <- (Forall2_length _ _ _ (run_leaves tr (setup p))).
    apply setup_fields.
  - apply setup_fields.
Qed.

End Sketch.

(** ** The flight campaign and the frame loop *)

Section Campaign.

Import TreeAnimation.

Context (p : p5) (m : JS.Math).

Lemma oneCampaign_setup : oneCampaign (setup p).
Proof.
  destruct (setup_fields p) as (_ & _ & Hfi & Hin & _).
  split; intros t; rewrite ?Hin, ?Hfi; [intros c|]; by rewrite ?lookup_empty.
Qed.

(** The live timers after [startRandomFlight]: the new one, alone. *)
Lemma startRandomFlight_fields color count s :
  oneCampaign s →
  let s1 := fst (startRandomFlight color count s) in
  flightInterval s1 = Some (nextTimer s)
  ∧ intervals s1 = {[ nextTimer s := (color, count) ]}
  ∧ nextTimer s1 = Pos.succ (nextTimer s)
  ∧ leaves s1 = leaves s ∧ birds s1 = birds s ∧ looping s1 = looping s.
Proof.
  intros [Hlive Hbelow]. unfold startRandomFlight.
  assert (∀ t, flightInterval s = Some t → delete t (intervals s) = ∅) as Hdel.
  { intros t Ht. apply map_eq. intros t'. rewrite lookup_empty.
    destruct (decide (t = t')) as [->|Hne]; [by rewrite lookup_delete_eq|].
    rewrite lookup_delete_ne by done.
    destruct (intervals s !! t') as [c|] eqn:E; [|done].
    apply Hlive in E. congruence. }
  assert (flightInterval s = None → intervals s = ∅) as Hnone.
  { intros Hn. apply map_eq. intros t'. rewrite lookup_empty.
    destruct (intervals s !! t') as [c|] eqn:E; [|done].
    apply Hlive in E. congruence. }
  destruct (flightInterval s) as [t|] eqn:Hfi; simpl.
  - rewrite (Hdel t eq_refl). by rewrite insert_empty.
  - rewrite (Hnone eq_refl). by rewrite insert_empty.
Qed.

Lemma cancelFlight_fields s :
  oneCampaign s →
  intervals (cancelFlight s) = ∅
  ∧ flightInterval (cancelFlight s) = flightInterval s
  ∧ nextTimer (cancelFlight s) = nextTimer s
  ∧ leaves (cancelFlight s) = leaves s ∧ birds (cancelFlight s) = birds s
  ∧ looping (cancelFlight s) = looping s.
Proof.
  intros [Hlive Hbelow]. unfold cancelFlight.
  destruct (flightInterval s) as [t|] eqn:Hfi; simpl; rewrite ?Hfi;
    (split; [|done]); apply map_eq; intros t'; rewrite lookup_empty.
  - destruct (decide (t = t')) as [->|Hne]; [by rewrite lookup_delete_eq|].
    rewrite lookup_delete_ne by done.
    destruct (intervals s !! t') as [c|] eqn:E; [|done].
    apply Hlive in E. congruence.
  - destruct (intervals s !! t') as [c|] eqn:E; [|done].
    apply Hlive in E. congruence.
Qed.

Lemma oneCampaign_step s e : oneCampaign s → oneCampaign (step p m s e).
Proof.
  intros H. pose proof H as [Hlive Hbelow].
  destruct e as [color count|color count| |t| |]; simpl.
  - destruct (fly_fields p color count s) as (_ & Hfi & Hin & Hnt & _).
    split; intros t; rewrite ?Hin, Hfi, ?Hnt; eauto.
  - change (oneCampaign (fst (startRandomFlight color count s))).
    destruct (startRandomFlight_fields color count s H) as (Hfi & Hin & Hnt & _).
    split; intros t; rewrite ?Hin, Hfi, ?Hnt.
    + intros c [<- _]%lookup_singleton_Some. done.
    + intros [= <-]. lia.
  - destruct (cancelFlight_fields s H) as (Hin & Hfi & Hnt & _).
    split; intros t; rewrite ?Hin, Hfi, ?Hnt; eauto. by rewrite lookup_empty.
  - destruct (intervals s !! t) as [[color count]|]; [|done].
    destruct (fly_fields p (Some color) count s) as (_ & Hfi & Hin & Hnt & _).
    split; intros t'; rewrite ?Hin, Hfi, ?Hnt; eauto.
  - destruct (looping s); [|done].
    destruct (draw_fields p m s) as (_ & Hfi & Hin & Hnt & _).
    split; intros t; rewrite ?Hin, Hfi, ?Hnt; eauto.
  - change (teardown s) with (cancelFlight s).
    destruct (cancelFlight_fields s H) as (Hin & Hfi & Hnt & _).
    split; intros t; rewrite ?Hin, Hfi, ?Hnt; eauto. by rewrite lookup_empty.
Qed.

Lemma oneCampaign_run tr : ∀ s, oneCampaign s → oneCampaign (run p m s tr).
Proof.
  induction tr as [|e tr IH]; intros s H; [done|].
  apply IH. by apply oneCampaign_step.
Qed.

(** Nothing but [startRandomFlight] starts a timer or moves
    [flightInterval]. *)
Lemma step_keeps_timers s e :
  oneCampaign s → isStart e = false →
  flightInterval (step p m s e) = flightInterval s
  ∧ nextTimer (step p m s e) = nextTimer s
  ∧ (∀ t c, intervals (step p m s e) !! t = Some c → intervals s !! t = Some c).
Proof.
  intros H He.
  destruct e as [color count|color count| |t| |]; simpl; try discriminate.
  - destruct (fly_fields p color count s) as (_ & -> & -> & -> & _). auto.
  - destruct (cancelFlight_fields s H) as (-> & -> & -> & _).
    repeat split; auto. intros t c. by rewrite lookup_empty.
  - destruct (intervals s !! t) as [[color count]|]; [|auto].
    destruct (fly_fields p (Some color) count s) as (_ & -> & -> & -> & _). auto.
  - destruct (looping s); [|auto].
    destruct (draw_fields p m s) as (_ & -> & -> & -> & _). auto.
  - change (teardown s) with (cancelFlight s).
    destruct (cancelFlight_fields s H) as (-> & -> & -> & _).
    repeat split; auto. intros t c. by rewrite lookup_empty.
Qed.

Lemma run_keeps_timers tr : ∀ s,
  oneCampaign s → forallb (fun e => negb (isStart e)) tr = true →
  flightInterval (run p m s tr) = flightInterval s
  ∧ (∀ t c, intervals (run p m s tr) !! t = Some c → intervals s !! t = Some c).
Proof.
  induction tr as [|e tr IH]; intros s H Htr; [done|].
  simpl in Htr. apply andb_true_iff in Htr as [He Htr].
  apply negb_true_iff in He.
  destruct (step_keeps_timers s e H He) as (Hfi & _ & Hin).
  destruct (IH (step p m s e) (oneCampaign_step s e H) Htr) as [Hfi' Hin'].
  simpl. split; [congruence | auto].
Qed.

(** A live timer that fires calls [fly] with its campaign's arguments. *)
Lemma step_interval_live s t color count :
  intervals s !! t = Some (color, count) →
  step p m s (Interval t) = state_of (fly p (Some color) count s).
Proof. intros E. simpl. by rewrite E. Qed.

(** C6.  In every state the sketch reaches after [setup], at most one
    timer is live, the one [flightInterval] holds.
    [startRandomFlight(color, count)] cancels it and starts a timer of its
    own, which is then the only live one; whenever a live timer fires it
    calls [fly] with its campaign's colour and count, so until the next
    [startRandomFlight] every spawn that a timer causes is this
    campaign's.  Whenever the returned handle is called later, this
    campaign's timer is not live afterwards (no timer is). *)
Theorem one_campaign_at_a_time tr color count :
  let s := run p m (setup p) tr in
  let s1 := fst (startRandomFlight color count s) in
  let cancel := snd (startRandomFlight color count s) in
  let t := nextTimer s in
  (∀ t1 t2 c1 c2, intervals s !! t1 = Some c1 → intervals s !! t2 = Some c2 →
                  t1 = t2 ∧ flightInterval s = Some t1)
  ∧ intervals s !! t = None
  ∧ flightInterval s1 = Some t
  ∧ intervals s1 = {[ t := (color, count) ]}
  ∧ (∀ tr' t' color' count',
       forallb (fun e => negb (isStart e)) tr' = true →
       intervals (run p m s1 tr') !! t' = Some (color', count') →
       t' = t ∧ color' = color ∧ count' = count
       ∧ step p m (run p m s1 tr') (Interval t')
         = state_of (fly p (Some color) count (run p m s1 tr')))
  ∧ (∀ tr', intervals (cancel (run p m s1 tr')) !! t = None
            ∧ intervals (cancel (run p m s1 tr')) = ∅).
Proof.
  cbv zeta.
  pose proof (oneCampaign_run tr _ oneCampaign_setup) as H.
  pose proof H as [Hlive Hbelow].
  destruct (startRandomFlight_fields color count _ H) as (Hfi & Hin & Hnt & _).
  assert (oneCampaign (fst (startRandomFlight color count (run p m (setup p) tr))))
    as H1 by apply (oneCampaign_step _ (StartRandomFlight color count) H).
  split; [|split; [|split; [done|split; [done|split]]]].
  - intros t1 t2 c1 c2 E1 E2. pose proof (Hlive _ _ E1). pose proof (Hlive _ _ E2).
    split; congruence.
  - destruct (intervals _ !! nextTimer _) eqn:E; [|done].
    apply Hlive, Hbelow in E. lia.
  - intros tr' t' color' count' Htr' E.
    pose proof E as E'.
    apply (run_keeps_timers tr' _ H1 Htr') in E'. rewrite Hin in E'.
    apply lookup_singleton_Some in E' as [<- [= <- <-]].
    repeat split. by apply step_interval_live.
  - intros tr'. change (snd (startRandomFlight color count _)) with cancelFlight.
    destruct (cancelFlight_fields _ (oneCampaign_run tr' _ H1)) as [-> _].
    by rewrite lookup_empty.
Qed.

(** C7, as amended.  After a render step the sketch loops only if a bird is
    left.  An idle sketch starts looping on a call of [fly] (direct or from
    the campaign timer) and on nothing else; [fly] leaves the sketch
    looping whether or not it created a bird.  If it created none and no
    bird was there, the next render step stops the loop again. *)
Theorem frame_loop_stops_without_birds_and_any_fly_resumes s :
  (birds (draw p m s) = [] → looping (draw p m s) = false)
  ∧ (birds (draw p m s) ≠ [] → looping (draw p m s) = looping s)
  ∧ (∀ color count, looping (state_of (fly p color count s)) = true)
  ∧ (∀ e, looping s = false → looping (step p m s e) = true → isSpawn e = true)
  ∧ (∀ color count,
       birds (state_of (fly p color count s)) = [] →
       looping (step p m (state_of (fly p color count s)) Frame) = false).
Proof.
  destruct (draw_fields p m s) as (_ & _ & _ & _ & Hloop).
  split; [|split; [|split; [|split]]].
  - intros E. by rewrite Hloop, E.
  - intros E. rewrite Hloop. destruct (birds (draw p m s)); done.
  - intros color count. apply fly_fields.
  - intros e Hidle Hon.
    destruct e as [color count|color count| |t| |]; simpl in *; try done.
    + unfold startRandomFlight in Hon.
      destruct (flightInterval s); simpl in Hon; congruence.
    + unfold cancelFlight in Hon.
      destruct (flightInterval s); simpl in Hon; congruence.
    + rewrite Hidle in Hon. congruence.
    + unfold teardown in Hon.
      destruct (flightInterval s); simpl in Hon; congruence.
  - intros color count E. simpl.
    destruct (fly_fields p color count s) as (_ & _ & _ & _ & ->).
    unfold draw. rewrite E. reflexivity.
Qed.

End Campaign.

(** C7, as stated, fails: a spawn call that creates no bird starts the
    loop of an idle sketch.  Right after [setup] with a count of zero, and
    on a sketch without an unused leaf of the colour asked for. *)
Lemma fly_without_birds_resumes_loop :
  let s := TreeAnimation.setup Demo.p in
  let s' := TreeAnimation.state_of (TreeAnimation.fly Demo.p (Some "ash") 0 s) in
  let k' := TreeAnimation.state_of
              (TreeAnimation.fly Demo.p (Some "blue") 1 Demo.sketch) in
  (TreeAnimation.looping s = false ∧ TreeAnimation.birds s' = []
   ∧ TreeAnimation.looping s' = true)
  ∧ (TreeAnimation.looping Demo.sketch = false ∧ TreeAnimation.birds k' = []
     ∧ TreeAnimation.looping k' = true).
Proof. cbv zeta. by vm_compute. Qed.

(** ** The pitch request scheduler *)

Section Scheduler.

Import PitchMonitor.

Context (props : PitchProps) (p : TreeAnimation.p5) (m : JS.Math)
        (freqToNote : float → NoteName * Z).

Local Abbreviation step := (PitchMonitor.step props p m freqToNote).
Local Abbreviation run := (PitchMonitor.run props p m freqToNote).
Local Abbreviation updatePitch := (PitchMonitor.updatePitch props).
Local Abbreviation renderFrame := (PitchMonitor.renderFrame props).
Local Abbreviation init := (PitchMonitor.init p).

(** The three ways through [updatePitch]. *)
Lemma updatePitch_cases hc input s :
  (pendingRef s = true ∧ updatePitch hc input s = s)
  ∨ (pendingRef s = false ∧ notReady (pitchSetupRef s)
     ∧ updatePitch hc input s = set_pendingRef true s)
  ∨ (pendingRef s = false
     ∧ ∃ a b ctx,
         analyser (pitchSetupRef s) = Some a
         ∧ buffer (pitchSetupRef s) = Some b
         ∧ audioContext (pitchSetupRef s) = Some ctx
         ∧ pendingRef (updatePitch hc input s) = true
         ∧ requests (updatePitch hc input s)
           = requests s
             ++ [{| req_samples := getFloatTimeDomainData input b;
                    req_sampleRate := sampleRate ctx;
                    req_powerThreshold := powerThreshold props;
                    req_clarityThreshold := clarityThreshold props;
                    req_controller := hc |}]
         ∧ freq (updatePitch hc input s) = freq s
         ∧ clarity (updatePitch hc input s) = clarity s
         ∧ loops (updatePitch hc input s) = loops s
         ∧ timeouts (updatePitch hc input s) = timeouts s
         ∧ controller (updatePitch hc input s) = controller s
         ∧ sketch (updatePitch hc input s) = sketch s).
Proof.
  unfold PitchMonitor.updatePitch, notReady.
  destruct (pendingRef s) eqn:Hp; [by left | right].
  simpl.
  destruct (analyser (pitchSetupRef s)) as [a|]; [|left; auto].
  destruct (buffer (pitchSetupRef s)) as [b|]; [|left; auto].
  destruct (audioContext (pitchSetupRef s)) as [ctx|]; [|left; auto].
  right. split; [done|]. exists a, b, ctx. by repeat split.
Qed.

(** What [updatePitch] never touches, and what it can only do. *)
Lemma updatePitch_fields hc input s :
  let s' := updatePitch hc input s in
  freq s' = freq s ∧ clarity s' = clarity s ∧ loops s' = loops s
  ∧ timeouts s' = timeouts s ∧ controller s' = controller s
  ∧ sketch s' = sketch s
  ∧ (pendingRef s = true → s' = s)
  ∧ pendingRef s' = true
  ∧ (requests s' = requests s ∨ ∃ r, requests s' = requests s ++ [r] ∧ pendingRef s = false).
Proof.
  destruct (updatePitch_cases hc input s)
    as [[Hp ->] | [(Hp & _ & ->) | (Hp & a & b & ctx & _ & _ & _ & ? & Hr & ? & ? & ? & ? & ? & ?)]];
    simpl; repeat split; auto; try congruence.
  right. eauto.
Qed.

Lemma renderFrame_fields i input s :
  let s' := renderFrame i input s in
  freq s' = freq s ∧ clarity s' = clarity s
  ∧ timeouts s' = timeouts s ∧ controller s' = controller s
  ∧ sketch s' = sketch s
  ∧ length (loops s') = length (loops s)
  ∧ (∀ j l', loops s' !! j = Some l' →
       ∃ l, loops s !! j = Some l ∧ cancelRender l' = cancelRender l)
  ∧ (pendingRef s = true → pendingRef s' = true ∧ requests s' = requests s)
  ∧ (requests s' = requests s ∧ pendingRef s' = pendingRef s
     ∨ requests s' = requests s ∧ pendingRef s' = true
       ∧ (∃ l, loops s !! i = Some l ∧ cancelRender l = false)
     ∨ ∃ r l, requests s' = requests s ++ [r] ∧ pendingRef s = false
              ∧ pendingRef s' = true
              ∧ loops s !! i = Some l ∧ cancelRender l = false).
Proof.
  unfold PitchMonitor.renderFrame.
  destruct (loops s !! i) as [l|] eqn:Hl.
  2: { simpl. repeat split; eauto. }
  assert (∀ ph j l', <[i := set_phase ph l]> (loops s) !! j = Some l' →
            ∃ l0, loops s !! j = Some l0 ∧ cancelRender l' = cancelRender l0) as Hloops.
  { intros ph j l' H. destruct (decide (i = j)) as [<-|Hne].
    - rewrite list_lookup_insert_eq in H by by eapply lookup_lt_Some.
      injection H as <-. eauto.
    - rewrite list_lookup_insert_ne in H by done. eauto. }
  destruct (cancelRender l) eqn:Hc; simpl.
  - rewrite length_insert. repeat split; eauto.
  - match goal with |- context [PitchMonitor.updatePitch _ _ _ ?s0] =>
      destruct (updatePitch_fields (loop_controller l) input s0)
        as (-> & -> & -> & -> & -> & -> & Hsame & Hpend & Hreq)
    end.
    simpl in *. rewrite length_insert.
    repeat split; eauto.
    + by rewrite Hsame.
    + destruct Hreq as [Hreq | (r & Hreq & Hp)].
      * right. left. eauto.
      * right. right. exists r, l. auto.
Qed.

Lemma updatePitch_resume_fields r frequency clarity' s :
  let s' := updatePitch_resume freqToNote r frequency clarity' s in
  pendingRef s' = false ∧ requests s' = requests s ∧ loops s' = loops s
  ∧ controller s' = controller s ∧ sketch s' = sketch s
  ∧ (JS.gt frequency 0 = true →
       freq s' = Some frequency ∧ clarity s' = Some clarity'
       ∧ timeouts s'
         = timeouts s
           ++ [{| to_color := colorMap (fst (freqToNote frequency));
                  to_count := snd (freqToNote frequency);
                  to_controller := req_controller r |}])
  ∧ (JS.gt frequency 0 = false →
       freq s' = None ∧ clarity s' = None ∧ timeouts s' = timeouts s).
Proof.
  unfold updatePitch_resume.
  destruct (JS.gt frequency 0); destruct (freqToNote frequency) as [note octave];
    simpl; repeat split; done.
Qed.

Lemma step_PitchResolved s k r frequency clarity' :
  requests s !! k = Some r →
  step s (PitchResolved k frequency clarity')
  = updatePitch_resume freqToNote r frequency clarity'
      (set_requests (delete k (requests s)) s).
Proof. intros H. simpl. by rewrite H. Qed.

(** [setupConnection] writes to [pitchSetupRef.current] and nowhere else,
    however it ends. *)
Lemma setupConnection_fields stop rate s :
  let s' := completion_state (setupConnection props stop rate s) in
  freq s' = freq s ∧ clarity s' = clarity s ∧ pendingRef s' = pendingRef s
  ∧ controller s' = controller s ∧ loops s' = loops s
  ∧ requests s' = requests s ∧ timeouts s' = timeouts s
  ∧ sketch s' = sketch s.
Proof.
  unfold setupConnection.
  repeat match goal with |- context [if ?b then _ else _] => destruct b end;
    by repeat split.
Qed.

(** The async function of an effect run either calls [renderFrame], in a
    state that differs from the one before in [pitchSetupRef] only, or
    marks the run failed in such a state. *)
Lemma startLoop_setup stop rate i input s :
  ∃ s0,
    (freq s0 = freq s ∧ clarity s0 = clarity s ∧ pendingRef s0 = pendingRef s
     ∧ controller s0 = controller s ∧ loops s0 = loops s
     ∧ requests s0 = requests s ∧ timeouts s0 = timeouts s
     ∧ sketch s0 = sketch s)
    ∧ (startLoop props i input (setupConnection props stop rate s)
       = renderFrame i input s0
       ∨ startLoop props i input (setupConnection props stop rate s)
         = set_loops (alter (set_phase Failed) i (loops s0)) s0).
Proof.
  pose proof (setupConnection_fields stop rate s) as H. cbv zeta in H.
  destruct (setupConnection props stop rate s) as [s0|s0];
    exists s0; (split; [exact H|]); [by left | by right].
Qed.

Lemma startLoop_fields stop rate i input s :
  let s' := startLoop props i input (setupConnection props stop rate s) in
  freq s' = freq s ∧ clarity s' = clarity s ∧ timeouts s' = timeouts s
  ∧ controller s' = controller s ∧ sketch s' = sketch s.
Proof.
  cbv zeta.
  destruct (startLoop_setup stop rate i input s)
    as (s0 & (Hf & Hc & _ & Hco & _ & _ & Ht & Hs) & [-> | ->]).
  - destruct (renderFrame_fields i input s0) as (-> & -> & -> & -> & -> & _).
    done.
  - done.
Qed.

(** Marking a run failed touches its phase only. *)
Lemma lookup_alter_Failed (ls : list Loop) i j l' :
  alter (set_phase Failed) i ls !! j = Some l' →
  ∃ l, ls !! j = Some l ∧ cancelRender l' = cancelRender l
       ∧ loop_controller l' = loop_controller l
       ∧ (l' = l ∨ (j = i ∧ phase l' = Failed)).
Proof.
  rewrite list_lookup_alter. destruct (decide (i = j)) as [<-|Hne].
  - destruct (ls !! i) as [l|]; [|done]. intros [= <-]. exists l.
    split; [done|]. split; [done|]. split; [done|]. by right.
  - intros H. exists l'.
    split; [done|]. split; [done|]. split; [done|]. by left.
Qed.

Lemma step_setup s e :
  (∃ i rate input, e = SetupDone i rate input)
  ∨ (∃ i stop rate, e = SetupFails i stop rate) →
  step s e = s
  ∨ ∃ s0 i input,
      (freq s0 = freq s ∧ clarity s0 = clarity s ∧ pendingRef s0 = pendingRef s
       ∧ controller s0 = controller s ∧ loops s0 = loops s
       ∧ requests s0 = requests s ∧ timeouts s0 = timeouts s
       ∧ sketch s0 = sketch s)
      ∧ (step s e = renderFrame i input s0
         ∨ step s e = set_loops (alter (set_phase Failed) i (loops s0)) s0).
Proof.
  intros [(i & rate & input & ->) | (i & stop & rate & ->)]; simpl;
    (destruct (loops s !! i) as [l|]; [|by left]);
    (destruct (phase l); try by left); right.
  - destruct (startLoop_setup None rate i input s) as (s0 & H & E).
    by exists s0, i, input.
  - destruct (startLoop_setup (Some stop) rate i [] s) as (s0 & H & E).
    by exists s0, i, [].
Qed.

(** How one turn of the event loop moves the scheduler: not at all; or a
    frame of a loop that is not cancelled sets the flag, with or without a
    request; or the worker settles a request. *)
Lemma step_scheduler s e :
  (requests (step s e) = requests s ∧ pendingRef (step s e) = pendingRef s)
  ∨ (pendingRef s = false ∧ pendingRef (step s e) = true
     ∧ (requests (step s e) = requests s
        ∨ ∃ r, requests (step s e) = requests s ++ [r])
     ∧ ∃ i l, loops s !! i = Some l ∧ cancelRender l = false)
  ∨ (∃ k frequency clarity' r,
       e = PitchResolved k frequency clarity' ∧ requests s !! k = Some r
       ∧ requests (step s e) = delete k (requests s)
       ∧ pendingRef (step s e) = false)
  ∨ (∃ k, e = PitchRejected k
          ∧ requests (step s e) = delete k (requests s)
          ∧ pendingRef (step s e) = pendingRef s).
Proof.
  assert (∀ i input s0,
            requests s0 = requests s → pendingRef s0 = pendingRef s →
            loops s0 = loops s →
            (requests (renderFrame i input s0) = requests s
             ∧ pendingRef (renderFrame i input s0) = pendingRef s)
            ∨ (pendingRef s = false ∧ pendingRef (renderFrame i input s0) = true
               ∧ (requests (renderFrame i input s0) = requests s
                  ∨ ∃ r, requests (renderFrame i input s0) = requests s ++ [r])
               ∧ ∃ i l, loops s !! i = Some l ∧ cancelRender l = false))
    as Hframe.
  { intros i input s0 Hr Hp Hl.
    destruct (renderFrame_fields i input s0)
      as (_ & _ & _ & _ & _ & _ & _ & Hkeep & Hreq).
    rewrite Hr, Hp, Hl in *.
    destruct (pendingRef s) eqn:E.
    - left. destruct (Hkeep eq_refl). auto.
    - destruct Hreq as [[? ?] | [(? & ? & ?) | (r & l & ? & ? & ? & ? & ?)]];
        [left; auto | right; eauto 10 | right; eauto 10]. }
  destruct e as [| | |i rate input|i input|k frequency clarity'|k|k|t| | |i stop rate];
    simpl; try (left; split; reflexivity).
  - destruct (loops s !! i) as [l|]; [|by left].
    destruct (phase l); try by left.
    destruct (startLoop_setup None rate i input s)
      as (s0 & (_ & _ & Hp & _ & Hl & Hr & _) & [-> | ->]).
    + destruct (Hframe i input s0) as [H|H]; auto.
    + left. by split.
  - destruct (loops s !! i) as [l|]; [|by left].
    destruct (phase l); try by left.
    destruct (Hframe i input s) as [H|H]; auto.
  - destruct (requests s !! k) as [r|] eqn:Hk; [|by left].
    right. right. left. exists k, frequency, clarity', r.
    match goal with |- context [updatePitch_resume _ _ _ _ ?s0] =>
      destruct (updatePitch_resume_fields r frequency clarity' s0)
        as (-> & -> & _)
    end. done.
  - right. right. right. by exists k.
  - destruct (timeouts s !! k) as [t|]; [|by left].
    unfold hook_startRandomFlight. destruct (to_controller t); by left.
  - destruct (loops s !! i) as [l|]; [|by left].
    destruct (phase l); try by left.
    destruct (startLoop_setup (Some stop) rate i [] s)
      as (s0 & (_ & _ & Hp & _ & Hl & Hr & _) & [-> | ->]).
    + destruct (Hframe i [] s0) as [H|H]; auto.
    + left. by split.
Qed.

Lemma serialized_step s e : serialized s → serialized (step s e).
Proof.
  intros [Hlen Hidle]. unfold serialized.
  destruct (step_scheduler s e)
    as [[-> ->] | [(Hp & -> & Hr & _)
       | [(k & f & c & r & _ & Hk & -> & ->) | (k & _ & -> & ->)]]].
  - done.
  - rewrite (Hidle Hp) in *. split; [|done].
    destruct Hr as [-> | [r ->]]; simpl; lia.
  - assert (delete k (requests s) = []) as ->; [|split; [simpl; lia | done]].
    apply lookup_lt_Some in Hk. apply nil_length_inv.
    rewrite length_delete by (apply lookup_lt_is_Some; lia). lia.
  - split.
    + pose proof (sublist_length _ _ (sublist_delete (requests s) k)). lia.
    + intros Hp. by rewrite (Hidle Hp).
Qed.

Lemma serialized_run tr : ∀ s, serialized s → serialized (run s tr).
Proof.
  induction tr as [|e tr IH]; intros s H; [done|].
  apply IH. by apply serialized_step.
Qed.

Lemma serialized_init : serialized init.
Proof. split; [simpl; lia | done]. Qed.

(** Once the flag is set with no request in flight, nothing moves the
    scheduler any more. *)
Lemma stuck_step s e : stuck s → stuck (step s e).
Proof.
  intros [Hp Hr]. unfold stuck.
  destruct (step_scheduler s e)
    as [[-> ->] | [(Hp' & _) | [(k & f & c & r & _ & Hk & _) | (k & _ & -> & ->)]]].
  - done.
  - congruence.
  - by rewrite Hr in Hk.
  - by rewrite Hr.
Qed.

Lemma stuck_run tr : ∀ s, stuck s → stuck (run s tr).
Proof.
  induction tr as [|e tr IH]; intros s H; [done|].
  apply IH. by apply stuck_step.
Qed.

(** C2.  In every state the component reaches, at most one [getPitch]
    request is in flight, and one is in flight only while [pendingRef] is
    set.  A call of [updatePitch] with the flag set changes nothing; with
    the flag clear it sets the flag, and issues at most one request.  The
    flag is cleared by nothing but the answer to the request in flight. *)
Theorem at_most_one_request_in_flight tr :
  let s := run init tr in
  length (requests s) ≤ 1
  ∧ (requests s ≠ [] → pendingRef s = true)
  ∧ (∀ hc input, pendingRef s = true → updatePitch hc input s = s)
  ∧ (∀ hc input,
       pendingRef (updatePitch hc input s) = true
       ∧ length (requests (updatePitch hc input s)) ≤ 1)
  ∧ (∀ e, pendingRef s = true → pendingRef (step s e) = false →
       ∃ k frequency clarity' r,
         e = PitchResolved k frequency clarity' ∧ requests s !! k = Some r
         ∧ requests (step s e) = []).
Proof.
  cbv zeta. pose proof (serialized_run tr _ serialized_init) as [Hlen Hidle].
  split; [done|]. split; [|split; [|split]].
  - intros Hne. destruct (pendingRef (run init tr)); [done|].
    by destruct Hne; apply Hidle.
  - intros hc input Hp. by apply updatePitch_fields.
  - intros hc input.
    destruct (updatePitch_fields hc input (run init tr))
      as (_ & _ & _ & _ & _ & _ & _ & Hp & Hr).
    split; [done|]. destruct Hr as [-> | (r & -> & Hp')]; [done|].
    rewrite (Hidle Hp'). simpl. lia.
  - intros e Hp Hp'.
    destruct (step_scheduler (run init tr) e)
      as [[_ E] | [(E & _) | [(k & f & c & r & -> & Hk & Hr & _) | (k & _ & _ & E)]]];
      try congruence.
    exists k, f, c, r. repeat split; try done.
    rewrite Hr. apply lookup_lt_Some in Hk. apply nil_length_inv.
    rewrite length_delete by (apply lookup_lt_is_Some; lia). lia.
Qed.

End Scheduler.

(** ** The capture context at a tick *)

Section Readiness.

Import PitchMonitor.

Context (props : PitchProps) (p : TreeAnimation.p5) (m : JS.Math)
        (freqToNote : float → NoteName * Z).

Local Abbreviation step := (PitchMonitor.step props p m freqToNote).
Local Abbreviation run := (PitchMonitor.run props p m freqToNote).
Local Abbreviation init := (PitchMonitor.init p).
Local Abbreviation updatePitch := (PitchMonitor.updatePitch props).
Local Abbreviation renderFrame := (PitchMonitor.renderFrame props).
Local Abbreviation setupConnection := (PitchMonitor.setupConnection props).

Lemma updatePitch_keeps_ready hc input s :
  ¬ notReady (pitchSetupRef s) →
  ¬ notReady (pitchSetupRef (updatePitch hc input s)).
Proof.
  unfold PitchMonitor.updatePitch, notReady. intros H.
  destruct (pendingRef s); [done|]. simpl.
  destruct (analyser (pitchSetupRef s)) as [a|]; [|exfalso; apply H; auto].
  destruct (buffer (pitchSetupRef s)) as [b|]; [|exfalso; apply H; auto].
  destruct (audioContext (pitchSetupRef s)) as [ctx|];
    [|exfalso; apply H; auto].
  simpl. intros [? | [? | ?]]; discriminate.
Qed.

Lemma renderFrame_keeps_ready i input s :
  ¬ notReady (pitchSetupRef s) →
  ¬ notReady (pitchSetupRef (renderFrame i input s)).
Proof.
  intros H. unfold PitchMonitor.renderFrame.
  destruct (loops s !! i) as [l|]; [|done].
  destruct (cancelRender l); [done|]. by apply updatePitch_keeps_ready.
Qed.

(** A setup that is resolved has assigned the three fields. *)
Lemma setupConnection_resolved_ready stop rate s s' :
  setupConnection stop rate s = Resolved s' → ¬ notReady (pitchSetupRef s').
Proof.
  unfold PitchMonitor.setupConnection, notReady.
  repeat match goal with |- context [if ?b then _ else _] => destruct b end;
    intros [= <-]; simpl; intros [? | [? | ?]]; discriminate.
Qed.

(** A setup, resolved or not, assigns fields and clears none. *)
Lemma setupConnection_keeps_ready stop rate s :
  ¬ notReady (pitchSetupRef s) →
  ¬ notReady (pitchSetupRef (completion_state (setupConnection stop rate s))).
Proof.
  unfold PitchMonitor.setupConnection, notReady. intros H.
  repeat match goal with |- context [if ?b then _ else _] => destruct b end;
    simpl; intros [? | [? | ?]]; try discriminate; apply H; auto.
Qed.

(** A setup that is resolved met no failing call and a window size that
    is not negative. *)
Lemma setupConnection_resolved stop rate s s' :
  setupConnection stop rate s = Resolved s' →
  stop = None ∧ (0 <= windowSize props)%Z.
Proof.
  unfold PitchMonitor.setupConnection.
  destruct (windowSize props <? 0)%Z eqn:Hw; destruct stop as [[]|]; simpl;
    try discriminate.
  intros _. split; [done|]. by apply Z.ltb_ge.
Qed.

Lemma cleanup_phases s j l' :
  loops (cleanup s) !! j = Some l' →
  ∃ l, loops s !! j = Some l ∧ phase l' = phase l.
Proof.
  unfold cleanup. simpl. rewrite list_lookup_alter.
  destruct (decide (length (loops s) - 1 = j)) as [<-|Hne]; [|eauto].
  destruct (loops s !! (length (loops s) - 1)) as [l|]; [|done].
  intros [= <-]. eauto.
Qed.

Lemma startLoop_startedReady stop rate i input s :
  startedReady s →
  startedReady (startLoop props i input (setupConnection stop rate s)).
Proof.
  intros H.
  pose proof (setupConnection_fields props stop rate s)
    as (_ & _ & _ & _ & Hl & _).
  pose proof (setupConnection_keeps_ready stop rate s) as Hkeep.
  destruct (setupConnection stop rate s) as [s0|s0] eqn:E; simpl in *.
  - intros j l' _ _. eapply renderFrame_keeps_ready,
      setupConnection_resolved_ready, E.
  - intros j l' Hj Hph. simpl in *. rewrite list_lookup_alter in Hj.
    destruct (decide (i = j)) as [<-|Hne].
    + destruct (loops s0 !! i) as [l|]; [|done]. injection Hj as <-.
      discriminate.
    + rewrite Hl in Hj. apply Hkeep, (H j l' Hj Hph).
Qed.

Lemma startedReady_step s e : startedReady s → startedReady (step s e).
Proof.
  intros H.
  assert (∀ s', pitchSetupRef s' = pitchSetupRef s →
            (∀ j l', loops s' !! j = Some l' → phase l' = Requested →
               ∃ l, loops s !! j = Some l ∧ phase l = Requested) →
            startedReady s') as Hsame.
  { intros s' Hps Hloops j l' Hj Hph. rewrite Hps.
    destruct (Hloops j l' Hj Hph) as (l & Hl & Hph'). by apply (H j l). }
  assert (∀ s', ¬ notReady (pitchSetupRef s') → startedReady s') as Hready.
  { intros s' Hr j l' _ _. done. }
  destruct e as [| | |i rate input|i input|k frequency clarity'|k|k|t| | |i stop rate].
  - apply Hsame; [done|]. intros j l' Hj Hph.
    change (loops (step s Enable))
      with (loops (cleanup s)
            ++ [{| cancelRender := false; phase := SettingUp;
                   loop_controller := controller (cleanup s) |}]) in Hj.
    apply lookup_app_Some in Hj as [Hj | [_ Hj]].
    + destruct (cleanup_phases s j l' Hj) as (l & Hl & E). exists l.
      by rewrite <- E.
    + apply list_lookup_singleton_Some in Hj as [_ <-]. done.
  - apply Hsame; [done|]. intros j l' Hj Hph.
    destruct (cleanup_phases s j l' Hj) as (l & Hl & E). exists l.
    by rewrite <- E.
  - apply Hsame; [done | eauto].
  - simpl. destruct (loops s !! i) as [l|] eqn:Hl; [|done].
    destruct (phase l) eqn:Hph; try done.
    by apply startLoop_startedReady.
  - simpl. destruct (loops s !! i) as [l|] eqn:Hl; [|done].
    destruct (phase l) eqn:Hph; try done.
    apply Hready, renderFrame_keeps_ready, (H i l Hl Hph).
  - simpl. destruct (requests s !! k) as [r|]; [|done].
    apply Hsame.
    + unfold updatePitch_resume.
      by destruct (JS.gt frequency 0), (freqToNote frequency).
    + match goal with |- context [updatePitch_resume _ _ _ _ ?s0] =>
        destruct (updatePitch_resume_fields freqToNote r frequency clarity' s0)
          as (_ & _ & -> & _)
      end. eauto.
  - apply Hsame; [done | eauto].
  - simpl. destruct (timeouts s !! k) as [t|]; [|done].
    unfold hook_startRandomFlight. destruct (to_controller t);
      (apply Hsame; [done | eauto]).
  - apply Hsame; [done | eauto].
  - apply Hsame; [done | eauto].
  - apply Hsame; [done | eauto].
  - simpl. destruct (loops s !! i) as [l|] eqn:Hl; [|done].
    destruct (phase l) eqn:Hph; try done.
    by apply startLoop_startedReady.
Qed.

Lemma startedReady_run tr : ∀ s, startedReady s → startedReady (run s tr).
Proof.
  induction tr as [|e tr IH]; intros s H; [done|].
  apply IH. by apply startedReady_step.
Qed.

Lemma startedReady_init : startedReady init.
Proof. intros i l H. simpl in H. by rewrite lookup_nil in H. Qed.



End Readiness.



(** ** Disabling the monitor, and what the orchestrator can reach *)

Section Lifecycle.

Import PitchMonitor.

Context (props : PitchProps) (p : TreeAnimation.p5) (m : JS.Math)
        (freqToNote : float → NoteName * Z).

Local Abbreviation step := (PitchMonitor.step props p m freqToNote).
Local Abbreviation run := (PitchMonitor.run props p m freqToNote).
Local Abbreviation init := (PitchMonitor.init p).


Lemma cleanup_loops s :
  length (loops (cleanup s)) = length (loops s)
  ∧ ∀ j l', loops (cleanup s) !! j = Some l' →
      ∃ l, loops s !! j = Some l
           ∧ (cancelRender l = true → cancelRender l' = true)
           ∧ (S j = length (loops s) → cancelRender l' = true).
Proof.
  unfold cleanup. simpl. split; [apply length_alter|].
  intros j l'. rewrite list_lookup_alter.
  destruct (decide (length (loops s) - 1 = j)) as [<-|Hne].
  - destruct (loops s !! (length (loops s) - 1)) as [l|]; [|done].
    intros [= <-]. exists l. by repeat split.
  - intros H. exists l'. repeat split; try done. lia.
Qed.

(** What one turn does to the runs of the effect, [Enable] apart: none is
    added, none is revived. *)
Lemma step_loops s e :
  isEnable e = false →
  length (loops (step s e)) = length (loops s)
  ∧ ∀ j l', loops (step s e) !! j = Some l' →
      ∃ l, loops s !! j = Some l
           ∧ (cancelRender l = true → cancelRender l' = true).
Proof.
  intros He.
  assert (∀ i input s0, loops s0 = loops s →
            length (loops (renderFrame props i input s0)) = length (loops s)
            ∧ ∀ j l', loops (renderFrame props i input s0) !! j = Some l' →
                ∃ l, loops s !! j = Some l
                     ∧ (cancelRender l = true → cancelRender l' = true))
    as Hframe.
  { intros i input s0 Hl.
    destruct (renderFrame_fields props i input s0)
      as (_ & _ & _ & _ & _ & Hlen & Hloops & _).
    rewrite Hl in *. split; [done|]. intros j l' Hj.
    destruct (Hloops j l' Hj) as (l & ? & E). exists l. by rewrite E. }
  assert (∀ s', loops s' = loops s →
            length (loops s') = length (loops s)
            ∧ ∀ j l', loops s' !! j = Some l' →
                ∃ l, loops s !! j = Some l
                     ∧ (cancelRender l = true → cancelRender l' = true))
    as Hsame.
  { intros s' ->. split; [done|]. intros j l' Hj. by exists l'. }
  assert (∀ stop rate i input,
            length (loops (startLoop props i input
                             (setupConnection props stop rate s)))
            = length (loops s)
            ∧ ∀ j l', loops (startLoop props i input
                               (setupConnection props stop rate s)) !! j
                      = Some l' →
                ∃ l, loops s !! j = Some l
                     ∧ (cancelRender l = true → cancelRender l' = true))
    as Hsetup.
  { intros stop rate i input.
    destruct (startLoop_setup props stop rate i input s)
      as (s0 & (_ & _ & _ & _ & Hl & _) & [-> | ->]); [by apply Hframe|].
    simpl. rewrite length_alter, Hl. split; [done|]. intros j l' Hj.
    destruct (lookup_alter_Failed _ _ _ _ Hj) as (l & ? & E & _).
    exists l. by rewrite E. }
  destruct e as [| | |i rate input|i input|k frequency clarity'|k|k|t| | |i stop rate];
    simpl in *; try discriminate; try (by apply Hsame).
  - destruct (cleanup_loops s) as [Hlen Hloops]. split; [done|].
    intros j l' Hj. destruct (Hloops j l' Hj) as (l & ? & ? & _). eauto.
  - destruct (loops s !! i) as [l|]; [|by apply Hsame].
    destruct (phase l); try (by apply Hsame). by apply Hsetup.
  - destruct (loops s !! i) as [l|]; [|by apply Hsame].
    destruct (phase l); try (by apply Hsame). by apply Hframe.
  - destruct (requests s !! k) as [r|]; [|by apply Hsame].
    apply Hsame.
    match goal with |- context [updatePitch_resume _ _ _ _ ?s0] =>
      by destruct (updatePitch_resume_fields freqToNote r frequency clarity' s0)
        as (_ & _ & -> & _)
    end.
  - destruct (timeouts s !! k) as [t|]; [|by apply Hsame].
    apply Hsame. unfold hook_startRandomFlight. by destruct (to_controller t).
  - destruct (loops s !! i) as [l|]; [|by apply Hsame].
    destruct (phase l); try (by apply Hsame). by apply Hsetup.
Qed.

Lemma olderLoopsCancelled_step s e :
  olderLoopsCancelled s → olderLoopsCancelled (step s e).
Proof.
  intros H. destruct (decide (isEnable e = true)) as [He|He].
  - destruct e; try discriminate. unfold olderLoopsCancelled.
    change (loops (step s Enable))
      with (loops (cleanup s)
            ++ [{| cancelRender := false; phase := SettingUp;
                   loop_controller := controller (cleanup s) |}]).
    destruct (cleanup_loops s) as [Hlen Hloops].
    intros j l'. rewrite length_app, Hlen. cbn [length]. intros Hj Hlt.
    rewrite lookup_app_l in Hj by lia.
    destruct (Hloops j l' Hj) as (l & Hl & Hkeep & Hlast).
    destruct (decide (S j = length (loops s))); [auto|].
    apply Hkeep, (H j l Hl). lia.
  - apply not_true_is_false in He.
    destruct (step_loops s e He) as [Hlen Hloops].
    intros j l' Hj Hlt. destruct (Hloops j l' Hj) as (l & Hl & Hkeep).
    apply Hkeep, (H j l Hl). lia.
Qed.

Lemma olderLoopsCancelled_run tr : ∀ s,
  olderLoopsCancelled s → olderLoopsCancelled (run s tr).
Proof.
  induction tr as [|e tr IH]; intros s H; [done|].
  apply IH. by apply olderLoopsCancelled_step.
Qed.

Lemma olderLoopsCancelled_init : olderLoopsCancelled init.
Proof. intros j l H. simpl in H. by rewrite lookup_nil in H. Qed.





(** The displayed values and the delayed triggers move only when the
    worker's answer to a request in flight arrives; a trigger that fires
    leaves the list. *)
Lemma step_display s e :
  (freq (step s e) = freq s ∧ clarity (step s e) = clarity s
   ∧ (timeouts (step s e) = timeouts s
      ∨ ∃ k, timeouts (step s e) = delete k (timeouts s)))
  ∨ ∃ k frequency clarity' r,
      e = PitchResolved k frequency clarity' ∧ requests s !! k = Some r.
Proof.
  assert (∀ i input s0,
            freq s0 = freq s → clarity s0 = clarity s → timeouts s0 = timeouts s →
            freq (renderFrame props i input s0) = freq s
            ∧ clarity (renderFrame props i input s0) = clarity s
            ∧ (timeouts (renderFrame props i input s0) = timeouts s
               ∨ ∃ k, timeouts (renderFrame props i input s0)
                      = delete k (timeouts s)))
    as Hframe.
  { intros i input s0 Hf Hc Ht.
    destruct (renderFrame_fields props i input s0) as (-> & -> & -> & _). auto. }
  assert (∀ stop rate i input,
            let s' := startLoop props i input
                        (setupConnection props stop rate s) in
            freq s' = freq s ∧ clarity s' = clarity s
            ∧ (timeouts s' = timeouts s
               ∨ ∃ k, timeouts s' = delete k (timeouts s)))
    as Hsetup.
  { intros stop rate i input. cbv zeta.
    destruct (startLoop_setup props stop rate i input s)
      as (s0 & (Hf & Hc & _ & _ & _ & _ & Ht & _) & [-> | ->]);
      [by apply Hframe | simpl; auto]. }
  destruct e as [| | |i rate input|i input|k frequency clarity'|k|k|t| | |i stop rate];
    simpl; try (left; repeat split; auto; fail).
  - destruct (loops s !! i) as [l|]; [|left; auto].
    destruct (phase l); left; auto.
  - destruct (loops s !! i) as [l|]; [|left; auto].
    destruct (phase l); left; auto.
  - destruct (requests s !! k) as [r|] eqn:Hk; [|left; auto]. right.
    by exists k, frequency, clarity', r.
  - destruct (timeouts s !! k) as [t|]; [|left; auto]. left.
    unfold hook_startRandomFlight.
    destruct (to_controller t); simpl; repeat split; eauto.
  - destruct (loops s !! i) as [l|]; [|left; auto].
    destruct (phase l); left; auto.
Qed.


(** The sketch keeps its campaign through [fly] and [draw]; a new
    [startRandomFlight] replaces it. *)
Lemma campaign_fly color count k :
  TreeAnimation.campaign (TreeAnimation.state_of (TreeAnimation.fly p color count k))
  = TreeAnimation.campaign k
  ∧ TreeAnimation.flightInterval
      (TreeAnimation.state_of (TreeAnimation.fly p color count k))
    = TreeAnimation.flightInterval k.
Proof.
  unfold TreeAnimation.campaign.
  by destruct (fly_fields p color count k) as (_ & -> & -> & _).
Qed.

Lemma campaign_draw k :
  TreeAnimation.campaign (TreeAnimation.draw p m k) = TreeAnimation.campaign k
  ∧ TreeAnimation.flightInterval (TreeAnimation.draw p m k)
    = TreeAnimation.flightInterval k.
Proof.
  unfold TreeAnimation.campaign.
  by destruct (draw_fields p m k) as (_ & -> & -> & _).
Qed.

Lemma campaign_startRandomFlight color count k :
  TreeAnimation.campaign (fst (TreeAnimation.startRandomFlight color count k))
  = Some (color, count).
Proof.
  unfold TreeAnimation.campaign, TreeAnimation.startRandomFlight.
  destruct (TreeAnimation.flightInterval k); simpl; apply lookup_insert_eq.
Qed.

Lemma step_campaign s e c :
  TreeAnimation.campaign (sketch s) = Some c → isTreeTeardown e = false →
  (∃ c', TreeAnimation.campaign (sketch (step s e)) = Some c')
  ∧ (isTimeoutFires e = false →
       TreeAnimation.campaign (sketch (step s e)) = Some c
       ∧ TreeAnimation.flightInterval (sketch (step s e))
         = TreeAnimation.flightInterval (sketch s)).
Proof.
  intros Hc He.
  assert (∀ s', sketch s' = sketch s →
            (∃ c', TreeAnimation.campaign (sketch s') = Some c')
            ∧ (isTimeoutFires e = false →
                 TreeAnimation.campaign (sketch s') = Some c
                 ∧ TreeAnimation.flightInterval (sketch s')
                   = TreeAnimation.flightInterval (sketch s)))
    as Hsame.
  { intros s' ->. eauto. }
  destruct e as [| | |i rate input|i input|k frequency clarity'|k|k|t| | |i stop rate];
    simpl in *; try discriminate; try (by apply Hsame).
  - destruct (loops s !! i) as [l|]; [|by apply Hsame].
    destruct (phase l); try (by apply Hsame). apply Hsame.
    by destruct (startLoop_fields props None rate i input s)
      as (_ & _ & _ & _ & -> ).
  - destruct (loops s !! i) as [l|]; [|by apply Hsame].
    destruct (phase l); try (by apply Hsame). apply Hsame.
    by destruct (renderFrame_fields props i input s) as (_ & _ & _ & _ & -> & _).
  - destruct (requests s !! k) as [r|]; [|by apply Hsame].
    apply Hsame.
    match goal with |- context [updatePitch_resume _ _ _ _ ?s0] =>
      by destruct (updatePitch_resume_fields freqToNote r frequency clarity' s0)
        as (_ & _ & _ & _ & -> & _)
    end.
  - destruct (timeouts s !! k) as [t|]; [|by apply Hsame].
    unfold hook_startRandomFlight. destruct (to_controller t); [|by apply Hsame].
    cbn [sketch set_sketch]. rewrite campaign_startRandomFlight.
    split; [eauto | done].
  - destruct (TreeAnimation.intervals (sketch s) !! t) as [[color count]|];
      [|by apply Hsame].
    destruct (campaign_fly (Some color) count (sketch s)) as [-> ->]. eauto.
  - destruct (TreeAnimation.looping (sketch s)); [|by apply Hsame].
    destruct (campaign_draw (sketch s)) as [-> ->]. eauto.
  - destruct (loops s !! i) as [l|]; [|by apply Hsame].
    destruct (phase l); try (by apply Hsame). apply Hsame.
    by destruct (startLoop_fields props (Some stop) rate i [] s)
      as (_ & _ & _ & _ & -> ).
Qed.

(** C10.  Once a campaign is running, it keeps running through every
    sequence of events short of the animation's teardown: enabling and
    disabling the monitor, frames, answers of the worker, timer firings.
    It stays the same campaign unless a delayed trigger calls
    [startRandomFlight], and then the new campaign runs in its place.
    Whenever its timer fires, [fly] is called with its colour and count. *)
Theorem running_campaign_is_only_superseded_or_torn_down tr tr' c :
  let s := run init tr in
  let s' := run s tr' in
  TreeAnimation.campaign (sketch s) = Some c →
  forallb (fun e => negb (isTreeTeardown e)) tr' = true →
  (∃ c', TreeAnimation.campaign (sketch s') = Some c')
  ∧ (forallb (fun e => negb (isTimeoutFires e)) tr' = true →
       TreeAnimation.campaign (sketch s') = Some c
       ∧ TreeAnimation.flightInterval (sketch s')
         = TreeAnimation.flightInterval (sketch s))
  ∧ (∀ t color count,
       TreeAnimation.flightInterval (sketch s') = Some t →
       TreeAnimation.campaign (sketch s') = Some (color, count) →
       sketch (step s' (IntervalFires t))
       = TreeAnimation.state_of
           (TreeAnimation.fly p (Some color) count (sketch s'))).
Proof.
  cbv zeta. generalize (run init tr). clear tr. intros s Hc Htr'.
  split; [|split].
  - revert s c Hc Htr'. induction tr' as [|e tr' IH]; intros s c Hc Htr'; [eauto|].
    simpl in Htr'. apply andb_true_iff in Htr' as [He Htr'].
    apply negb_true_iff in He.
    destruct (step_campaign s e c Hc He) as [[c' Hc'] _]. by apply (IH _ c').
  - revert s Hc Htr'. induction tr' as [|e tr' IH]; intros s Hc Htr' Hto; [done|].
    simpl in Htr', Hto. apply andb_true_iff in Htr' as [He Htr'].
    apply andb_true_iff in Hto as [He' Hto].
    apply negb_true_iff in He, He'.
    destruct (step_campaign s e c Hc He) as [_ H]. destruct (H He') as [Hc' Hfi].
    destruct (IH _ Hc' Htr' Hto) as [? Hfi']. split; [done|].
    etransitivity; [exact Hfi' | exact Hfi].
  - intros t color count Hfi Hcamp. unfold TreeAnimation.campaign in Hcamp.
    rewrite Hfi in Hcamp. simpl. by rewrite Hcamp.
Qed.

End Lifecycle.



(** The campaign started from a 440 Hz detection is still the running one
    after the monitor is disabled and its timer has fired twice. *)
Lemma running_campaign_example :
  TreeAnimation.campaign
    (PitchMonitor.sketch
       (PitchMonitor.run Demo.props Demo.p Demo.math Demo.freqToNote
          (PitchMonitor.run Demo.props Demo.p Demo.math Demo.freqToNote
             (PitchMonitor.init Demo.p)
             [PitchMonitor.ControllerReady; PitchMonitor.Enable;
              PitchMonitor.SetupDone 0 44100 [];
              PitchMonitor.PitchResolved 0 440 0.9;
              PitchMonitor.TimeoutFires 0])
          [PitchMonitor.Disable; PitchMonitor.IntervalFires 1;
           PitchMonitor.SketchFrame; PitchMonitor.IntervalFires 1]))
  = Some ("ash", 4%Z).
Proof.
  refine (proj1 (proj1 (proj2
            (running_campaign_is_only_superseded_or_torn_down
               Demo.props Demo.p Demo.math Demo.freqToNote
               [PitchMonitor.ControllerReady; PitchMonitor.Enable;
                PitchMonitor.SetupDone 0 44100 [];
                PitchMonitor.PitchResolved 0 440 0.9;
                PitchMonitor.TimeoutFires 0]
               [PitchMonitor.Disable; PitchMonitor.IntervalFires 1;
                PitchMonitor.SketchFrame; PitchMonitor.IntervalFires 1]
               ("ash", 4%Z) _ _)) _)); by vm_compute.
Defined.

(** ** Notes and palette colours *)

Section Notes.

Import PitchMonitor CircleChartUtils.

Lemma round_IZR n : round (IZR n) = n.
Proof. unfold round. symmetry. apply Int_part_spec. lra. Qed.

Lemma ln_2_neq_0 : ln 2 ≠ 0%R.
Proof. apply ln_neq_0; lra. Qed.

Lemma semitoneOffset_semitone n : semitoneOffset (semitone n) = n.
Proof.
  unfold semitoneOffset, semitone, log2.
  replace (440 * Rpower 2 (IZR n / 12) / 440)%R with (Rpower 2 (IZR n / 12))
    by (field; lra).
  rewrite ln_Rpower.
  replace (12 * (IZR n / 12 * ln 2 / ln 2))%R with (IZR n)
    by (field; apply ln_2_neq_0).
  apply round_IZR.
Qed.

Lemma semitone_0 : semitone 0 = 440%R.
Proof.
  unfold semitone. replace (0 / 12)%R with 0%R by lra.
  rewrite Rpower_O by lra. lra.
Qed.

Lemma semitone_12 : semitone 12 = 880%R.
Proof.
  unfold semitone. replace (12 / 12)%R with 1%R by lra.
  rewrite Rpower_1 by lra. lra.
Qed.

Lemma semitone_pos n : (0 < semitone n)%R.
Proof.
  unfold semitone, Rpower. apply Rmult_lt_0_compat; [lra | apply exp_pos].
Qed.

(** C9, as amended.  With the semitone offset from A4 rounded to the
    nearest integer, the name is entry [(offset + 9) mod 12] of the
    chromatic sequence from C and the octave is
    [4 + floor((offset + 9) / 12)]: the frequency [n] semitones from 440 Hz
    is mapped to exactly that pair, 440 to (A, 4) and 880 to (A, 5).  The
    palette assigns the twelve names, from C on, the colours yellow ...
    black, A being ash; on a detected frequency the orchestrator schedules
    a flight with the colour of the note and the octave as count. *)
Theorem exact_semitones_map_to_note_and_palette_colour n :
  semitoneOffset (semitone n) = n
  ∧ (0 < semitone n)%R
  ∧ freqToNote (semitone n)
    = (nth (Z.to_nat ((n + 9) mod 12)) NOTES C, (4 + (n + 9) / 12)%Z)
  ∧ freqToNote 440 = (A, 4%Z)
  ∧ noteColor (freqToNote 440) = ("ash", 4%Z)
  ∧ freqToNote 880 = (A, 5%Z)
  ∧ map colorMap NOTES
    = [ "yellow"; "orange"; "pink"; "red"; "green"; "darkgreen"; "blue";
        "darkblue"; "purple"; "ash"; "brown"; "black" ]
  ∧ (∀ (mapper : float → NoteName * Z) r frequency clarity' s,
       JS.gt frequency 0 = true →
       timeouts (updatePitch_resume mapper r frequency clarity' s)
       = timeouts s
         ++ [{| to_color := fst (noteColor (mapper frequency));
                to_count := snd (noteColor (mapper frequency));
                to_controller := req_controller r |}]).
Proof.
  assert (∀ k, freqToNote (semitone k)
               = (nth (Z.to_nat ((k + 9) mod 12)) NOTES C, (4 + (k + 9) / 12)%Z))
    as Hnote.
  { intros k. unfold freqToNote, octaveOf. by rewrite semitoneOffset_semitone. }
  split; [apply semitoneOffset_semitone|]. split; [apply semitone_pos|].
  split; [apply Hnote|].
  split; [by rewrite <- semitone_0, Hnote|].
  split; [by rewrite <- semitone_0, Hnote|].
  split; [by rewrite <- semitone_12, Hnote|].
  split; [reflexivity|].
  intros mapper r frequency clarity' s Hpos.
  by destruct (updatePitch_resume_fields mapper r frequency clarity' s)
    as (_ & _ & _ & _ & _ & H & _); destruct (H Hpos) as (_ & _ & ->).
Qed.

(** C9, as stated, fails at its own example: with the name taken at index
    [offset mod 12] from C, 440 Hz (offset 0) is named C and coloured
    yellow. *)
Lemma name_indexed_by_offset_calls_440_C :
  freqToNote_indexed_by_offset 440 = (C, 4%Z)
  ∧ freqToNote_indexed_by_offset 440 ≠ (A, 4%Z)
  ∧ noteColor (freqToNote_indexed_by_offset 440) = ("yellow", 4%Z).
Proof.
  assert (freqToNote_indexed_by_offset 440 = (C, 4%Z)) as E.
  { unfold freqToNote_indexed_by_offset, octaveOf.
    by rewrite <- semitone_0, semitoneOffset_semitone. }
  rewrite E. by repeat split.
Qed.

End Notes.

(** * Further properties of the animation *)

(** ** The render step *)

Section RenderStep.

Import TreeAnimation.

Context (p : p5) (m : JS.Math).

(** The backward loop with [splice] visits every bird once: after [i]
    passes the birds from [i] on are done, the ones before are untouched. *)
Lemma drawBirds_spec i : ∀ bs,
  i ≤ length bs →
  drawBirds p m i bs
  = filter (fun b => isOutOfBounds p b = false) (Bird_update m <$> take i bs)
    ++ drop i bs.
Proof.
  induction i as [|i IH]; intros bs Hi; [reflexivity|].
  destruct (lookup_lt_is_Some_2 bs i ltac:(lia)) as [b Hb].
  simpl. rewrite Hb.
  rewrite (take_S_r _ _ _ Hb), fmap_app, filter_app, <- app_assoc.
  assert (length (<[i := Bird_update m b]> bs) = length bs) as Hlen
    by apply length_insert.
  destruct (isOutOfBounds p (Bird_update m b)) eqn:Hout.
  - rewrite IH by (rewrite length_delete, Hlen;
                   [lia | apply lookup_lt_is_Some; lia]).
    rewrite delete_take_drop, take_app_length' by (rewrite length_take; lia).
    rewrite drop_app_length' by (rewrite length_take; lia).
    rewrite take_insert_ge, drop_insert_lt by lia.
    simpl. rewrite filter_cons, decide_False by congruence. done.
  - rewrite IH by lia.
    rewrite take_insert_ge by lia.
    rewrite drop_insert_ge, Nat.sub_diag by lia.
    rewrite (drop_S _ _ _ Hb). simpl.
    rewrite filter_cons, decide_True by done. done.
Qed.

Lemma birds_draw s :
  birds (draw p m s)
  = filter (fun b => isOutOfBounds p b = false) (Bird_update m <$> birds s).
Proof.
  unfold draw.
  destruct (length (drawBirds p m (length (birds s)) (birds s)) =? 0)%nat;
    simpl; rewrite drawBirds_spec, take_ge, drop_ge, app_nil_r by lia; done.
Qed.

(** X1.  One render step moves every bird once, then drops the birds that
    are out of bounds after the move and keeps the others in their order;
    it never adds a bird, and a bird it keeps is inside the margin. *)
Theorem draw_moves_all_birds_and_drops_those_out_of_bounds s :
  birds (draw p m s)
  = filter (fun b => isOutOfBounds p b = false) (Bird_update m <$> birds s)
  ∧ length (birds (draw p m s)) ≤ length (birds s)
  ∧ (∀ b, b ∈ birds (draw p m s) →
       isOutOfBounds p b = false ∧ ∃ b0, b0 ∈ birds s ∧ b = Bird_update m b0).
Proof.
  rewrite birds_draw. split; [done|]. split.
  - etransitivity; [apply length_filter|]. by rewrite length_fmap.
  - intros b [Hin Hb]%list_elem_of_filter. split; [done|].
    apply list_elem_of_fmap in Hb as (b0 & -> & Hb0). eauto.
Qed.

End RenderStep.

(** ** The generated leaves *)

Section GeneratedLeaves.

Import TreeAnimation.

Context (p : p5) (m : JS.Math).

Lemma rgb_leafColors name c : leafColors !! name = Some c → rgb c.
Proof.
  intros H.
  assert (Forall (fun nc => rgb nc.2) (map_to_list leafColors)) as Hall.
  { vm_compute. repeat constructor; discriminate. }
  rewrite Forall_forall in Hall.
  apply (Hall (name, c)). by apply elem_of_map_to_list.
Qed.

Lemma colors_in_leafColors name :
  name ∈ colors → ∃ c, leafColors !! name = Some c.
Proof.
  intros H.
  assert (Forall (fun n => is_Some (leafColors !! n)) colors) as Hall
    by (repeat constructor; by eexists).
  rewrite Forall_forall in Hall. by apply Hall.
Qed.

(** The leaf one [forEach] iteration pushes. *)
Lemma pushLeaf_leaf s pos :
  ∃ l, leaves (pushLeaf p s pos) = leaves s ++ [l]
       ∧ leafPosition l = pos ∧ isUsed l = false ∧ paletteLeaf l
       ∧ birds (pushLeaf p s pos) = birds s.
Proof.
  assert (floor_random p (draws s) (length colors) < length colors) as Hlt
    by (apply Nat.mod_upper_bound; simpl; lia).
  destruct (lookup_lt_is_Some_2 _ _ Hlt) as [name Hname].
  assert (name ∈ colors) as Hin by by eapply list_elem_of_lookup_2.
  destruct (colors_in_leafColors name Hin) as [c Hc].
  unfold pushLeaf. cbv zeta. rewrite Hname.
  change (default "" (Some name)) with name. rewrite Hc.
  eexists. split; [reflexivity|]. unfold paletteLeaf. simpl.
  split; [by destruct pos|]. split; [done|]. split; [|done].
  split; [done|]. split; [done | by eapply rgb_leafColors].
Qed.

Lemma generateLeaves_leaves positions : ∀ s,
  ∃ ls, leaves (fold_left (pushLeaf p) positions s) = leaves s ++ ls
        ∧ leafPosition <$> ls = positions
        ∧ Forall (fun l => isUsed l = false ∧ paletteLeaf l) ls
        ∧ birds (fold_left (pushLeaf p) positions s) = birds s.
Proof.
  induction positions as [|pos positions IH]; intros s; simpl.
  - exists []. by rewrite app_nil_r.
  - destruct (pushLeaf_leaf s pos) as (l & Hl & Hpos & Hu & Hpal & Hb).
    destruct (IH (pushLeaf p s pos)) as (ls & Hls & Hposs & Hall & Hbs).
    exists (l :: ls). rewrite Hls, Hl, <- app_assoc, fmap_cons, Hposs, Hpos, Hbs, Hb.
    repeat split; try done. by constructor.
Qed.

Lemma setup_leaves :
  leafPosition <$> leaves (setup p)
  = generateLeafPositions p (width p / 2)%float (height p - 260)%float 126
      (- PI p / 2)%float 6 []
  ∧ Forall (fun l => isUsed l = false ∧ paletteLeaf l) (leaves (setup p))
  ∧ birds (setup p) = [].
Proof.
  unfold setup, generateLeaves.
  match goal with |- context [fold_left _ ?ps ?s] =>
    destruct (generateLeaves_leaves ps s) as (ls & -> & Hpos & Hall & ->)
  end.
  simpl. by rewrite Hpos.
Qed.

(** X2.  [setup] makes one leaf per generated position, in the order of
    the positions and at their coordinates; every leaf starts unused, with
    a colour name of the palette and that name's colour, three channels of
    8 bits each. *)
Theorem setup_makes_one_palette_leaf_per_position :
  leafPosition <$> leaves (setup p)
  = generateLeafPositions p (width p / 2)%float (height p - 260)%float 126
      (- PI p / 2)%float 6 []
  ∧ Forall (fun l => isUsed l = false ∧ paletteLeaf l) (leaves (setup p))
  ∧ birds (setup p) = [].
Proof. exact setup_leaves. Qed.

Lemma paletteLeaf_later l l' : laterLeaf l l' → paletteLeaf l → paletteLeaf l'.
Proof.
  intros (_ & _ & _ & Hc & Hn & _) (? & ? & ?). unfold paletteLeaf.
  by rewrite Hc, Hn.
Qed.

Lemma Forall_paletteLeaf_later ls ls' :
  Forall2 laterLeaf ls ls' → Forall paletteLeaf ls → Forall paletteLeaf ls'.
Proof.
  induction 1 as [|l l' ls ls' Hl _ IH]; [done|].
  intros [? ?]%Forall_cons. constructor; eauto using paletteLeaf_later.
Qed.

(** The birds keep the palette colour they were born with. *)
Lemma step_colours s e :
  Forall paletteLeaf (leaves s) →
  Forall (fun b => rgb (bird_color b)) (birds s) →
  Forall (fun b => rgb (bird_color b)) (birds (step p m s e)).
Proof.
  intros Hleaves Hbirds.
  assert (∀ color count,
            Forall (fun b => rgb (bird_color b))
              (birds (state_of (fly p color count s)))) as Hfly.
  { intros color count.
    destruct (fly_returns p color count s)
      as (s' & sel & newBirds & -> & _ & _ & _ & _ & Hnew & Hborn & _).
    simpl. rewrite Hnew. apply Forall_app. split; [done|].
    clear -Hborn Hleaves. induction Hborn as [|b i bs sel' Hb _ IH]; [done|].
    constructor; [|done]. destruct Hb as (l & Hl & _ & _ & ->).
    rewrite Forall_lookup in Hleaves. by apply (Hleaves i l Hl). }
  destruct e as [color count|color count| |t| |]; simpl.
  - apply Hfly.
  - unfold startRandomFlight. by destruct (flightInterval s).
  - unfold cancelFlight. by destruct (flightInterval s).
  - destruct (intervals s !! t) as [[color count]|]; [apply Hfly | done].
  - destruct (looping s); [|done].
    rewrite birds_draw. apply Forall_forall.
    intros b [_ Hb]%list_elem_of_filter.
    apply list_elem_of_fmap in Hb as (b0 & -> & Hb0).
    rewrite Forall_forall in Hbirds. by apply (Hbirds b0).
  - unfold teardown. by destruct (flightInterval s).
Qed.

(** X3.  In every state the sketch reaches after [setup], every leaf is a
    palette leaf and every bird carries a colour of three channels of 8
    bits: the channels 0, 1 and 2 that [drawLeaf] and [Bird.draw] read are
    always there. *)
Theorem leaves_and_birds_keep_palette_colours tr :
  let s := run p m (setup p) tr in
  Forall paletteLeaf (leaves s)
  ∧ Forall (fun b => rgb (bird_color b)) (birds s).
Proof.
  cbv zeta.
  assert (Forall paletteLeaf (leaves (setup p))
          ∧ Forall (fun b => rgb (bird_color b)) (birds (setup p))) as Hinit.
  { destruct setup_leaves as (_ & Hall & ->).
    split; [|done]. eapply Forall_impl; [exact Hall|]. by intros l [_ ?]. }
  generalize dependent (setup p). induction tr as [|e tr IH]; intros s [Hl Hb];
    [done|].
  simpl. apply IH. split.
  - eapply Forall_paletteLeaf_later; [apply step_leaves | done].
  - by apply step_colours.
Qed.

End GeneratedLeaves.

(** ** The drawn tree *)

Section DrawnTree.

Import TreeAnimation.

Context (p : p5).

Lemma fold_left_option_pushes {X Y} (h : option (list X) → Y → option (list X))
    (g : Y → list X) (l : list Y) :
  (∀ acc i, h (Some acc) i = Some (acc ++ g i)) →
  ∀ acc, fold_left h l (Some acc) = Some (acc ++ flat_map g l).
Proof.
  intros H. induction l as [|i l IH]; intros acc; simpl.
  - by rewrite app_nil_r.
  - by rewrite H, IH, <- app_assoc.
Qed.

Lemma fold_left_option_fails {X Y} (h : option (list X) → Y → option (list X))
    (l : list Y) acc :
  l ≠ [] → (∀ acc i, h (Some acc) i = None) → (∀ i, h None i = None) →
  fold_left h l (Some acc) = None.
Proof.
  intros Hl Hsome Hnone. destruct l as [|i l]; [done|]. simpl. rewrite Hsome.
  clear Hl. induction l as [|j l IH]; simpl; [done|]. by rewrite Hnone.
Qed.

Lemma drawBranch_rec_S fuel x y len angle depth lines :
  depth ≠ 0%Z →
  drawBranch_rec (S fuel) p x y len angle depth lines
  = fold_left
      (fun acc i =>
         match acc with
         | None => None
         | Some lines =>
             let e := endPoint p x y len angle depth i in
             drawBranch_rec fuel p (pos_x e) (pos_y e) (len * 0.65)%float
               (newAngle p angle depth i) (depth - 1)
               (lines ++ [branchLine p x y len angle depth i])
         end)
      (seqZ 0 (branchCount depth)) (Some lines).
Proof. intros H. simpl. by destruct (Z.eqb_spec depth 0). Qed.

Lemma branchLines_S d x y len angle :
  branchLines (S d) p x y len angle
  = flat_map
      (fun i =>
         let e := endPoint p x y len angle (Z.of_nat (S d)) i in
         branchLine p x y len angle (Z.of_nat (S d)) i
         :: branchLines d p (pos_x e) (pos_y e) (len * 0.65)%float
              (newAngle p angle (Z.of_nat (S d)) i))
      (seqZ 0 (branchCount (Z.of_nat (S d)))).
Proof. reflexivity. Qed.

(** With as many levels of fuel as the depth, [drawBranch] returns. *)
Lemma drawBranch_rec_lines d : ∀ fuel x y len angle lines,
  d ≤ fuel →
  drawBranch_rec fuel p x y len angle (Z.of_nat d) lines
  = Some (lines ++ branchLines d p x y len angle).
Proof.
  induction d as [|d IH]; intros fuel x y len angle lines Hf.
  - destruct fuel; simpl; by rewrite app_nil_r.
  - destruct fuel as [|fuel]; [lia|].
    rewrite drawBranch_rec_S, branchLines_S by lia.
    apply fold_left_option_pushes. intros acc i. cbv zeta.
    replace (Z.of_nat (S d) - 1)%Z with (Z.of_nat d) by lia.
    rewrite IH by lia. by rewrite <- app_assoc.
Qed.

(** Below zero the test [depth === 0] is never met. *)
Lemma drawBranch_rec_negative fuel : ∀ x y len angle depth lines,
  (depth < 0)%Z → drawBranch_rec fuel p x y len angle depth lines = None.
Proof.
  induction fuel as [|fuel IH]; intros x y len angle depth lines Hd.
  - simpl. destruct (Z.eqb_spec depth 0); [lia | done].
  - rewrite drawBranch_rec_S by lia. apply fold_left_option_fails.
    + intros E. apply (f_equal length) in E. rewrite length_seqZ in E.
      unfold branchCount in E. by destruct (depth >? 4)%Z.
    + intros acc i. cbv zeta. apply IH. lia.
    + done.
Qed.

Lemma generateLeafPositions_of_nat d x y len angle :
  generateLeafPositions p x y len angle (Z.of_nat d) []
  = generateLeafPositions_rec d p x y len angle (Z.of_nat d) [].
Proof. unfold generateLeafPositions. by rewrite Nat2Z.id. Qed.

(** Every recorded leaf position is the end of a branch line. *)
Lemma leaf_positions_on_branch_ends d : ∀ x y len angle pos,
  2 ≤ d →
  pos ∈ generateLeafPositions p x y len angle (Z.of_nat d) [] →
  ∃ l, l ∈ branchLines d p x y len angle ∧ lineEnd l = pos.
Proof.
  induction d as [|d IH]; intros x y len angle pos Hd Hpos; [lia|].
  rewrite generateLeafPositions_of_nat, generateLeafPositions_rec_S in Hpos by lia.
  rewrite app_nil_l in Hpos.
  apply list_elem_of_In, in_flat_map in Hpos as (i & Hi & Hpos).
  apply list_elem_of_In in Hpos. unfold pushedBy in Hpos. cbv zeta in Hpos.
  replace (Z.of_nat (S d) - 1)%Z with (Z.of_nat d) in Hpos by lia.
  rewrite <- generateLeafPositions_of_nat in Hpos.
  assert (branchLine p x y len angle (Z.of_nat (S d)) i
          ∈ branchLines (S d) p x y len angle) as Hline.
  { rewrite branchLines_S. apply list_elem_of_In, in_flat_map.
    exists i. split; [done|]. by left. }
  assert (lineEnd (branchLine p x y len angle (Z.of_nat (S d)) i)
          = endPoint p x y len angle (Z.of_nat (S d)) i) as Hend
    by reflexivity.
  apply elem_of_cons in Hpos as [-> | Hpos]; [eauto|].
  destruct (decide (2 ≤ d)) as [Hd'|Hd'].
  - destruct (IH _ _ _ _ pos Hd' Hpos) as (l & Hl & <-).
    exists l. split; [|done]. rewrite branchLines_S.
    apply list_elem_of_In, in_flat_map. exists i. split; [done|].
    right. by apply list_elem_of_In.
  - assert (d = 1) as -> by lia.
    unfold generateLeafPositions in Hpos. simpl in Hpos.
    apply list_elem_of_singleton in Hpos as ->. eauto.
Qed.

Lemma drawBranch_nonneg x y len angle depth lines :
  (0 <= depth)%Z →
  drawBranch p x y len angle depth lines
  = Some (lines ++ branchLines (Z.to_nat depth) p x y len angle).
Proof.
  intros Hd. unfold drawBranch.
  rewrite <- (Z2Nat.id depth) at 2 by done. by apply drawBranch_rec_lines.
Qed.

Lemma leaf_positions_on_branch_ends_Z x y len angle depth pos :
  (2 <= depth)%Z →
  pos ∈ generateLeafPositions p x y len angle depth [] →
  ∃ l, l ∈ branchLines (Z.to_nat depth) p x y len angle ∧ lineEnd l = pos.
Proof.
  intros Hd Hpos. apply leaf_positions_on_branch_ends; [lia|].
  by rewrite Z2Nat.id by lia.
Qed.

(** X4.  [drawBranch] returns exactly for a depth of zero or more, having
    drawn the lines of [branchLines] after the ones drawn before; with a
    depth below zero no number of recursive calls reaches its base case.
    From a depth of 2 on, every position that [generateLeafPositions]
    records for the same arguments is the end point of one of the lines. *)
Theorem drawBranch_lines_and_leaf_positions x y len angle depth lines :
  ((0 <= depth)%Z →
     drawBranch p x y len angle depth lines
     = Some (lines ++ branchLines (Z.to_nat depth) p x y len angle))
  ∧ ((depth < 0)%Z →
       ∀ fuel, drawBranch_rec fuel p x y len angle depth lines = None)
  ∧ ((2 <= depth)%Z →
       ∀ pos, pos ∈ generateLeafPositions p x y len angle depth [] →
         ∃ l, l ∈ branchLines (Z.to_nat depth) p x y len angle
              ∧ lineEnd l = pos).
Proof.
  split; [|split].
  - apply drawBranch_nonneg.
  - intros Hd fuel. by apply drawBranch_rec_negative.
  - intros Hd pos. by apply leaf_positions_on_branch_ends_Z.
Qed.

(** X5.  On a canvas where the top of the trunk, [height - 50 - 210], is
    the point [height - 260] the leaves are generated from,
    [drawTreeStructure] returns and every leaf of [setup] sits at the end
    of one of the lines it draws. *)
Theorem every_leaf_sits_at_the_end_of_a_drawn_branch :
  (height p - 50 - 210)%float = (height p - 260)%float →
  ∃ lines,
    drawTreeStructure p = Some lines
    ∧ ∀ l, l ∈ leaves (setup p) →
        ∃ ln, ln ∈ lines ∧ lineEnd ln = leafPosition l.
Proof.
  intros Htop. unfold drawTreeStructure. cbv zeta.
  rewrite drawBranch_nonneg by lia. eexists. split; [reflexivity|].
  intros l Hl.
  assert (leafPosition l
          ∈ generateLeafPositions p (width p / 2)%float (height p - 260)%float
              126 (- PI p / 2)%float 6 []) as Hpos.
  { destruct (setup_leaves p) as (<- & _). by apply list_elem_of_fmap_2. }
  destruct (leaf_positions_on_branch_ends_Z _ _ _ _ 6 _ ltac:(lia) Hpos)
    as (ln & Hln & Hend).
  exists ln. split; [|exact Hend]. apply elem_of_app. right.
  rewrite Htop. exact Hln.
Qed.

End DrawnTree.

(** The canvas of the sketch is 700 by 700. *)
Lemma every_leaf_on_a_branch_example :
  ∃ lines,
    TreeAnimation.drawTreeStructure Demo.p = Some lines
    ∧ ∀ l, l ∈ TreeAnimation.leaves (TreeAnimation.setup Demo.p) →
        ∃ ln, ln ∈ lines
              ∧ TreeAnimation.lineEnd ln = TreeAnimation.leafPosition l.
Proof.
  exact (every_leaf_sits_at_the_end_of_a_drawn_branch Demo.p eq_refl).
Defined.

(** ** What a spawn call uses up *)

Section FlyAccounting.

Import TreeAnimation.

Context (p : p5) (m : JS.Math).

Lemma length_markAll sel : ∀ ls, length (markAll sel ls) = length ls.
Proof.
  induction sel as [|i sel IH]; intros ls; [reflexivity|].
  change (markAll (i :: sel) ls) with (markAll sel (alter markUsed i ls)).
  by rewrite IH, length_alter.
Qed.

(** Marking leaves takes exactly their references out of the eligible
    ones, whatever colour is asked for. *)
Lemma availableLeaves_markAll color sel ls :
  availableLeaves color (markAll sel ls)
  = filter (fun i => i ∉ sel) (availableLeaves color ls).
Proof.
  unfold availableLeaves. rewrite length_markAll, list_filter_filter.
  apply list_filter_iff. intros i. unfold eligibleAt.
  rewrite lookup_markAll. destruct (decide (i ∈ sel)) as [Hin|Hin].
  - split; [|by intros [? _]]. by destruct (ls !! i).
  - split; [done | by intros [_ ?]].
Qed.

Lemma filter_keeps_all (P : nat → Prop) `{!∀ i, Decision (P i)} (l : list nat) :
  (∀ i, i ∈ l → P i) → filter P l = l.
Proof.
  induction l as [|b l IH]; intros Hall; [done|].
  rewrite filter_cons_True by (apply Hall; by left).
  rewrite IH; [done|]. intros i Hi. apply Hall. by right.
Qed.

Lemma length_filter_remove (l : list nat) a :
  NoDup l → a ∈ l → length (filter (fun i => i ≠ a) l) + 1 = length l.
Proof.
  induction l as [|b l IH]; intros Hnd Ha; [by inversion Ha|].
  apply NoDup_cons in Hnd as [Hb Hnd]. rewrite filter_cons.
  destruct (decide (b ≠ a)) as [Hne|Heq].
  - apply elem_of_cons in Ha as [->|Ha]; [done|]. simpl.
    rewrite <- (IH Hnd Ha). lia.
  - assert (b = a) as -> by (destruct (decide (b = a)); done).
    rewrite filter_keeps_all; [simpl; lia|]. intros i Hi ->. done.
Qed.

Lemma length_filter_not_in (sel : list nat) : ∀ l,
  NoDup sel → NoDup l → (∀ i, i ∈ sel → i ∈ l) →
  length (filter (fun i => i ∉ sel) l) + length sel = length l.
Proof.
  induction sel as [|a sel IH]; intros l Hsel Hl Hsub.
  - rewrite filter_keeps_all; [simpl; lia|]. intros i _ H. inversion H.
  - apply NoDup_cons in Hsel as [Ha Hsel].
    assert (filter (fun i => i ∉ a :: sel) l
            = filter (fun i => i ≠ a) (filter (fun i => i ∉ sel) l)) as ->.
    { rewrite list_filter_filter. apply list_filter_iff. intros i.
      rewrite not_elem_of_cons. tauto. }
    specialize (IH l Hsel Hl (fun i Hi => Hsub i (list_elem_of_further _ _ _ Hi))).
    assert (a ∈ filter (fun i => i ∉ sel) l) as Hin.
    { apply list_elem_of_filter. split; [done|]. apply Hsub. by left. }
    pose proof (length_filter_remove _ a (NoDup_filter _ _ Hl) Hin).
    simpl. lia.
Qed.

(** Used and unused leaves make up the pool. *)
Lemma usedCount_unused ls :
  usedCount ls + length (availableLeaves None ls) = length ls.
Proof.
  rewrite length_availableLeaves. unfold usedCount.
  pose proof (Permutation_length
                (filter_app_complement (fun l => isUsed l = true) ls)) as H.
  rewrite length_app in H. rewrite <- H. f_equal. f_equal.
  apply list_filter_iff.
  intros l. unfold eligible. destruct (isUsed l); simpl; split; congruence.
Qed.

Lemma eligible_any color l : eligible color l = true → eligible None l = true.
Proof. unfold eligible. destruct (isUsed l); simpl; done. Qed.

(** X6.  A spawn call marks exactly as many leaves as it creates birds:
    the number of used leaves grows by the number of birds created, and
    the number of leaves eligible for the colour asked for falls by it.
    With a colour given, the leaves eligible for any other colour are the
    same before and after.  A count that reaches the number of eligible
    leaves uses them all up. *)
Theorem fly_uses_one_leaf_per_bird_of_its_colour_only color count s :
  let s' := state_of (fly p color count s) in
  let created := length (birds s') - length (birds s) in
  usedCount (leaves s') = usedCount (leaves s) + created
  ∧ length (availableLeaves color (leaves s')) + created
    = length (availableLeaves color (leaves s))
  ∧ (∀ c c', color = Some c → c' ≠ c →
       availableLeaves (Some c') (leaves s')
       = availableLeaves (Some c') (leaves s))
  ∧ ((Z.of_nat (length (availableLeaves color (leaves s))) <= count)%Z →
       availableLeaves color (leaves s') = []).
Proof.
  cbv zeta.
  destruct (fly_returns p color count s)
    as (s' & sel & newBirds & -> & Hlen & Hsel & Hsub & Hleaves & Hbirds
        & Hborn & _).
  simpl. rewrite Hleaves, Hbirds, length_app, !availableLeaves_markAll.
  pose proof (Forall2_length _ _ _ Hborn) as Hnb.
  replace (length (birds s) + length newBirds - length (birds s))
    with (length sel) by lia.
  pose proof (length_filter_not_in sel _ Hsel
                (NoDup_availableLeaves color (leaves s)) Hsub) as Hcount.
  assert (∀ i, i ∈ sel → i ∈ availableLeaves None (leaves s)) as Hsub'.
  { intros i Hi. apply availableLeaves_elem.
    destruct (proj1 (availableLeaves_elem _ _ _) (Hsub i Hi)) as (l & Hl & He).
    exists l. eauto using eligible_any. }
  pose proof (length_filter_not_in sel _ Hsel
                (NoDup_availableLeaves None (leaves s)) Hsub') as Hcount'.
  split; [|split; [done|split]].
  - pose proof (usedCount_unused (leaves s)).
    pose proof (usedCount_unused (markAll sel (leaves s))) as H'.
    rewrite availableLeaves_markAll, length_markAll in H'. lia.
  - intros c c' -> Hne. rewrite availableLeaves_markAll.
    apply (filter_keeps_all (fun i => i ∉ sel)). intros i Hi Hin.
    apply availableLeaves_elem in Hi as (l & Hl & [_ Hc']%eligible_spec).
    destruct (proj1 (availableLeaves_elem _ _ _) (Hsub i Hin))
      as (l' & Hl' & [_ Hc]%eligible_spec).
    rewrite Hl in Hl'. injection Hl' as <-.
    apply Hne. by rewrite <- (Hc' c' eq_refl), <- (Hc c eq_refl).
  - intros Hall. apply nil_length_inv. lia.
Qed.

End FlyAccounting.

(** ** After the teardown *)

Section AfterTeardown.

Import TreeAnimation.

Context (p : p5) (m : JS.Math).

(** With no timer live and none started, timers stay dead; without a
    direct [fly] either, the leaves stay as they are and no bird is added. *)
Lemma quiet_step s e :
  oneCampaign s → intervals s = ∅ → isStart e = false →
  intervals (step p m s e) = ∅
  ∧ (isFly e = false →
       leaves (step p m s e) = leaves s
       ∧ length (birds (step p m s e)) ≤ length (birds s)).
Proof.
  intros Hone Hdead Hstart.
  destruct (step_keeps_timers p m s e Hone Hstart) as (_ & _ & Hsub).
  split.
  - apply map_eq. intros t. rewrite lookup_empty.
    destruct (intervals (step p m s e) !! t) as [c|] eqn:E; [|done].
    apply Hsub in E. by rewrite Hdead, lookup_empty in E.
  - intros Hfly.
    destruct e as [color count|color count| |t| |]; simpl in *; try discriminate.
    + unfold cancelFlight. by destruct (flightInterval s).
    + by rewrite Hdead, lookup_empty.
    + destruct (looping s); [|done].
      destruct (draw_fields p m s) as (-> & _). split; [done|].
      rewrite birds_draw. etransitivity; [apply length_filter|].
      by rewrite length_fmap.
    + unfold teardown. by destruct (flightInterval s).
Qed.

(** X7.  After the effect's cleanup no timer is live, and none becomes
    live until [startRandomFlight] is called again: a firing of any timer
    id does nothing.  As long as [fly] is not called directly either, the
    leaves keep their state and no bird is added. *)
Theorem teardown_stops_the_campaign tr tr' :
  let s := step p m (run p m (setup p) tr) Teardown in
  let s' := run p m s tr' in
  forallb (fun e => negb (isStart e)) tr' = true →
  intervals s' = ∅
  ∧ campaign s' = None
  ∧ (∀ t, step p m s' (Interval t) = s')
  ∧ (forallb (fun e => negb (isFly e)) tr' = true →
       leaves s' = leaves s ∧ length (birds s') ≤ length (birds s)).
Proof.
  cbv zeta.
  assert (oneCampaign (step p m (run p m (setup p) tr) Teardown)
          ∧ intervals (step p m (run p m (setup p) tr) Teardown) = ∅)
    as [Hone Hdead].
  { pose proof (oneCampaign_run p m tr _ (oneCampaign_setup p)) as H.
    split; [by apply oneCampaign_step|].
    change (step p m ?s Teardown) with (cancelFlight s).
    by destruct (cancelFlight_fields _ H) as [-> _]. }
  generalize dependent (step p m (run p m (setup p) tr) Teardown).
  induction tr' as [|e tr' IH]; intros s Hone Hdead Htr'.
  - simpl. split; [done|]. split; [|split; [|done]].
    + unfold campaign. destruct (flightInterval s); [|done].
      by rewrite Hdead, lookup_empty.
    + intros t. by rewrite Hdead, lookup_empty.
  - simpl in Htr'. apply andb_true_iff in Htr' as [He Htr'].
    apply negb_true_iff in He.
    destruct (quiet_step s e Hone Hdead He) as [Hdead' Hquiet].
    destruct (IH _ (oneCampaign_step p m s e Hone) Hdead' Htr')
      as (H1 & H2 & H3 & H4).
    split; [done|]. split; [done|]. split; [done|].
    intros Hfly. simpl in Hfly. apply andb_true_iff in Hfly as [Hf Hfly].
    apply negb_true_iff in Hf.
    destruct (Hquiet Hf) as [Hl Hb]. destruct (H4 Hfly) as [Hl' Hb'].
    split; [by rewrite <- Hl | simpl in *; lia].
Qed.

End AfterTeardown.

(** A campaign is started, the animation is torn down, and the timer id
    of the campaign fires twice more. *)
Lemma teardown_example :
  TreeAnimation.intervals
    (TreeAnimation.run Demo.p Demo.math
       (TreeAnimation.step Demo.p Demo.math
          (TreeAnimation.run Demo.p Demo.math (TreeAnimation.setup Demo.p)
             [TreeAnimation.StartRandomFlight "ash" 2;
              TreeAnimation.Interval 1])
          TreeAnimation.Teardown)
       [TreeAnimation.Interval 1; TreeAnimation.Frame;
        TreeAnimation.Interval 1])
  = ∅.
Proof.
  exact (proj1 (teardown_stops_the_campaign Demo.p Demo.math
                  [TreeAnimation.StartRandomFlight "ash" 2;
                   TreeAnimation.Interval 1]
                  [TreeAnimation.Interval 1; TreeAnimation.Frame;
                   TreeAnimation.Interval 1]
                  eq_refl)).
Defined.

(** * Further properties of the pitch monitor *)

(** ** The runs of the frame loop *)

Section FrameLoops.

Import PitchMonitor.

Context (props : PitchProps) (p : TreeAnimation.p5) (m : JS.Math)
        (freqToNote : float → NoteName * Z).

Local Abbreviation step := (PitchMonitor.step props p m freqToNote).
Local Abbreviation run := (PitchMonitor.run props p m freqToNote).
Local Abbreviation init := (PitchMonitor.init p).

Lemma live_at_most_last (ls : list Loop) :
  (∀ i l, ls !! i = Some l → S i < length ls → cancelRender l = true) →
  length (filter (fun l => cancelRender l = false) ls) ≤ 1.
Proof.
  induction ls as [|a ls IH]; intros H; [simpl; lia|].
  destruct ls as [|b ls]; [rewrite filter_cons; destruct (decide _); simpl; lia|].
  rewrite filter_cons_False.
  - apply IH. intros i l Hi Hlt. apply (H (S i) l Hi). simpl in *. lia.
  - rewrite (H 0 a eq_refl) by (simpl; lia). done.
Qed.

(** X8.  However often the monitor is enabled, disabled and enabled again,
    at most one run of the frame loop is not cancelled. *)
Theorem at_most_one_frame_loop_is_live tr :
  length (liveLoops (run init tr)) ≤ 1.
Proof.
  apply live_at_most_last.
  apply (olderLoopsCancelled_run props p m freqToNote tr),
    olderLoopsCancelled_init.
Qed.

Lemma renderFrame_cancelled i input s l :
  loops s !! i = Some l → cancelRender l = true →
  renderFrame props i input s
  = set_loops (<[i := set_phase Stopped l]> (loops s)) s.
Proof. intros Hl Hc. unfold renderFrame. by rewrite Hl, Hc. Qed.

Lemma step_AnimationFrame s i l input :
  loops s !! i = Some l →
  step s (AnimationFrame i input)
  = match phase l with
    | Requested => renderFrame props i input s
    | _ => s
    end.
Proof. intros Hl. simpl. by rewrite Hl. Qed.

Lemma step_SetupDone s i l rate input :
  loops s !! i = Some l →
  step s (SetupDone i rate input)
  = match phase l with
    | SettingUp =>
        startLoop props i input (setupConnection props None rate s)
    | _ => s
    end.
Proof. intros Hl. simpl. by rewrite Hl. Qed.

Lemma stopped_loop_ignores_frames s i l input :
  loops s !! i = Some l → phase l = Stopped →
  step s (AnimationFrame i input) = s.
Proof. intros Hl Hph. by rewrite (step_AnimationFrame s i l), Hph. Qed.

Lemma failed_loop_ignores_frames s i l input :
  loops s !! i = Some l → phase l = Failed →
  step s (AnimationFrame i input) = s.
Proof. intros Hl Hph. by rewrite (step_AnimationFrame s i l), Hph. Qed.

(** X9.  For a run of the effect that has been cancelled, the frame
    callback and the end of its setup issue no request and leave the
    flag, the displayed values, the delayed triggers and the sketch alone;
    the run requests no further frame, so a later callback for it does
    nothing at all. *)
Theorem cancelled_loop_only_stops s i l rate input input' :
  loops s !! i = Some l → cancelRender l = true →
  (let s' := step s (AnimationFrame i input) in
   requests s' = requests s ∧ pendingRef s' = pendingRef s
   ∧ freq s' = freq s ∧ clarity s' = clarity s ∧ timeouts s' = timeouts s
   ∧ sketch s' = sketch s ∧ pitchSetupRef s' = pitchSetupRef s
   ∧ step s' (AnimationFrame i input') = s')
  ∧ (let s' := step s (SetupDone i rate input) in
     requests s' = requests s ∧ pendingRef s' = pendingRef s
     ∧ freq s' = freq s ∧ clarity s' = clarity s ∧ timeouts s' = timeouts s
     ∧ sketch s' = sketch s
     ∧ (phase l = SettingUp → step s' (AnimationFrame i input') = s')).
Proof.
  intros Hl Hc. assert (i < length (loops s)) as Hi by by eapply lookup_lt_Some.
  cbv zeta. rewrite (step_AnimationFrame s i l), (step_SetupDone s i l) by done.
  split.
  - destruct (phase l) eqn:Hph.
    + repeat split; try done.
      by rewrite (step_AnimationFrame s i l), Hph.
    + rewrite (renderFrame_cancelled i input s l) by done.
      repeat split; try done.
      apply (stopped_loop_ignores_frames _ i (set_phase Stopped l)); [|done].
      by apply list_lookup_insert_eq.
    + repeat split; try done. by apply (stopped_loop_ignores_frames s i l).
    + repeat split; try done. by apply (failed_loop_ignores_frames s i l).
  - destruct (phase l) eqn:Hph; [|repeat split; done..].
    pose proof (setupConnection_fields props None rate s)
      as (Ef & Ec & Ep & _ & El & Er & Et & Es).
    destruct (setupConnection props None rate s) as [s0|s0];
      unfold startLoop; cbn [completion_state] in *.
    + rewrite (renderFrame_cancelled i input s0 l); [|by rewrite El|done].
      repeat split; try done. intros _.
      apply (stopped_loop_ignores_frames _ i (set_phase Stopped l)); [|done].
      apply list_lookup_insert_eq. by rewrite El.
    + repeat split; try done. intros _.
      apply (failed_loop_ignores_frames _ i (set_phase Failed l)); [|done].
      cbn [loops set_loops]. rewrite list_lookup_alter, El, Hl.
      by destruct (decide (i = i)).
Qed.

End FrameLoops.

(** The loop of the first run is cancelled; its pending frame callback
    arrives afterwards. *)
Lemma cancelled_loop_example :
  PitchMonitor.requests
    (PitchMonitor.step Demo.props Demo.p Demo.math Demo.freqToNote
       (PitchMonitor.run Demo.props Demo.p Demo.math Demo.freqToNote
          (PitchMonitor.init Demo.p)
          [PitchMonitor.Enable; PitchMonitor.SetupDone 0 44100 [];
           PitchMonitor.PitchResolved 0 0 0; PitchMonitor.Disable])
       (PitchMonitor.AnimationFrame 0 []))
  = [].
Proof.
  refine (eq_trans
            (proj1 (proj1
               (cancelled_loop_only_stops Demo.props Demo.p Demo.math
                  Demo.freqToNote
                  (PitchMonitor.run Demo.props Demo.p Demo.math Demo.freqToNote
                     (PitchMonitor.init Demo.p)
                     [PitchMonitor.Enable; PitchMonitor.SetupDone 0 44100 [];
                      PitchMonitor.PitchResolved 0 0 0; PitchMonitor.Disable])
                  0 _ 44100 [] [] eq_refl eq_refl)))
            _).
  reflexivity.
Defined.

(** ** The capture context, the display and the worker *)

Section Capture.

Import PitchMonitor.

Context (props : PitchProps) (p : TreeAnimation.p5) (m : JS.Math)
        (freqToNote : float → NoteName * Z).

Local Abbreviation step := (PitchMonitor.step props p m freqToNote).
Local Abbreviation run := (PitchMonitor.run props p m freqToNote).
Local Abbreviation init := (PitchMonitor.init p).
Local Abbreviation updatePitch := (PitchMonitor.updatePitch props).
Local Abbreviation renderFrame := (PitchMonitor.renderFrame props).

Lemma renderFrame_live i input s l :
  loops s !! i = Some l → cancelRender l = false →
  renderFrame i input s
  = updatePitch (loop_controller l) input
      (set_loops (<[i := set_phase Requested l]> (loops s)) s).
Proof. intros Hl Hc. unfold PitchMonitor.renderFrame. by rewrite Hl, Hc. Qed.

(** X10.  A frame of the live loop that finds the flag clear sets it and
    issues exactly one request, for the samples the analyser holds copied
    over the buffer, as many as the buffer has, with the sample rate of the
    audio context in [pitchSetupRef], on behalf of the closure of that
    run. *)
Theorem live_frame_with_clear_flag_issues_a_request tr i l input :
  let s := run init tr in
  let s' := step s (AnimationFrame i input) in
  loops s !! i = Some l → phase l = Requested → cancelRender l = false →
  pendingRef s = false →
  pendingRef s' = true
  ∧ ∃ a b ctx r,
      analyser (pitchSetupRef s) = Some a
      ∧ buffer (pitchSetupRef s) = Some b
      ∧ audioContext (pitchSetupRef s) = Some ctx
      ∧ requests s' = [r]
      ∧ req_samples r = getFloatTimeDomainData input b
      ∧ length (req_samples r) = length b
      ∧ req_sampleRate r = sampleRate ctx
      ∧ req_controller r = loop_controller l.
Proof.
  cbv zeta. intros Hl Hph Hc Hp.
  pose proof (startedReady_run props p m freqToNote tr _
                (startedReady_init p) i l Hl Hph) as Hready.
  pose proof (serialized_run props p m freqToNote tr _ (serialized_init p))
    as [_ Hidle].
  rewrite (step_AnimationFrame props p m freqToNote _ i l), Hph by done.
  rewrite (renderFrame_live i input _ l) by done.
  match goal with |- context [PitchMonitor.updatePitch _ ?hc _ ?s0] =>
    destruct (updatePitch_cases props hc input s0)
      as [[Hp' _] | [(_ & Hnr & _)
         | (_ & a & b & ctx & Ha & Hb & Hctx & Hpend & Hreq & _)]]
  end.
  - simpl in Hp'. congruence.
  - done.
  - split; [done|]. simpl in Ha, Hb, Hctx.
    eexists a, b, ctx, _. split; [done|]. split; [done|]. split; [done|].
    split; [rewrite Hreq; simpl; by rewrite (Hidle Hp)|].
    cbn [req_samples req_sampleRate req_controller].
    split; [done|]. split; [|done].
    unfold getFloatTimeDomainData.
    rewrite length_app, length_take, length_drop. lia.
Qed.

End Capture.

(** After an answer without a pitch the flag is clear, and the next frame
    of the loop sets it again. *)
Lemma live_frame_example :
  PitchMonitor.pendingRef
    (PitchMonitor.step Demo.props Demo.p Demo.math Demo.freqToNote
       (PitchMonitor.run Demo.props Demo.p Demo.math Demo.freqToNote
          (PitchMonitor.init Demo.p)
          [PitchMonitor.Enable; PitchMonitor.SetupDone 0 44100 [];
           PitchMonitor.PitchResolved 0 0 0])
       (PitchMonitor.AnimationFrame 0 []))
  = true.
Proof.
  exact (proj1 (live_frame_with_clear_flag_issues_a_request
                  Demo.props Demo.p Demo.math Demo.freqToNote
                  [PitchMonitor.Enable; PitchMonitor.SetupDone 0 44100 [];
                   PitchMonitor.PitchResolved 0 0 0]
                  0 _ [] eq_refl eq_refl eq_refl eq_refl)).
Defined.

(** ** A rejected request, and what is displayed *)

Section Display.

Import PitchMonitor.

Context (props : PitchProps) (p : TreeAnimation.p5) (m : JS.Math)
        (freqToNote : float → NoteName * Z).

Local Abbreviation step := (PitchMonitor.step props p m freqToNote).
Local Abbreviation run := (PitchMonitor.run props p m freqToNote).
Local Abbreviation init := (PitchMonitor.init p).

Lemma length_delete_le {A} (l : list A) k : length (delete k l) ≤ length l.
Proof.
  revert k. induction l as [|x l IH]; intros [|k]; simpl; try lia.
  specialize (IH k). lia.
Qed.

Lemma stuck_keeps_display tr : ∀ s,
  stuck s →
  freq (run s tr) = freq s ∧ clarity (run s tr) = clarity s
  ∧ length (timeouts (run s tr)) ≤ length (timeouts s).
Proof.
  induction tr as [|e tr IH]; intros s Hs; [done|].
  change (run s (e :: tr)) with (run (step s e) tr).
  destruct (IH (step s e) (stuck_step props p m freqToNote s e Hs))
    as (-> & -> & Hlen).
  destruct (step_display props p m freqToNote s e)
    as [(-> & -> & Ht) | (k & f & c & r & _ & Hk)].
  - repeat split; try done.
    destruct Ht as [Ht | [k Ht]]; rewrite Ht in Hlen; [done|].
    pose proof (length_delete_le (timeouts s) k). lia.
  - destruct Hs as [_ Hreq]. by rewrite Hreq, lookup_nil in Hk.
Qed.

(** X11.  A request that the worker rejects leaves the flag set with no
    request in flight, and nothing clears the flag afterwards: whatever
    happens next, no request is issued again, the display keeps the values
    it had, and no delayed trigger is added. *)
Theorem rejected_request_stops_detection_for_good tr k r tr' :
  let s := run init tr in
  requests s !! k = Some r →
  let s' := run (step s (PitchRejected k)) tr' in
  pendingRef s' = true ∧ requests s' = []
  ∧ freq s' = freq s ∧ clarity s' = clarity s
  ∧ length (timeouts s') ≤ length (timeouts s).
Proof.
  cbv zeta. intros Hk.
  pose proof (serialized_run props p m freqToNote tr _ (serialized_init p))
    as [Hlen Hidle].
  set (s := run init tr) in *.
  assert (stuck (step s (PitchRejected k))) as Hstuck.
  { split; simpl.
    - destruct (pendingRef s); [done|].
      by rewrite (Hidle eq_refl), lookup_nil in Hk.
    - destruct (requests s) as [|r0 [|r1 rs]]; simpl in *; try lia;
        try by rewrite lookup_nil in Hk.
      destruct k as [|k]; [done|]. by rewrite lookup_cons, lookup_nil in Hk. }
  destruct (stuck_run props p m freqToNote tr' _ Hstuck) as [Hp Hr].
  destruct (stuck_keeps_display tr' _ Hstuck) as (Hf & Hc & Ht).
  repeat split; done.
Qed.

Lemma displayConsistent_step s e :
  displayConsistent s → displayConsistent (step s e).
Proof.
  intros H. unfold displayConsistent in *.
  destruct (step_display props p m freqToNote s e)
    as [(-> & -> & _) | (k & f & c & r & -> & Hk)]; [done|].
  rewrite (step_PitchResolved props p m freqToNote s k r f c Hk).
  match goal with |- context [updatePitch_resume _ _ _ _ ?s0] =>
    destruct (updatePitch_resume_fields freqToNote r f c s0)
      as (_ & _ & _ & _ & _ & Hpos & Hneg)
  end.
  destruct (JS.gt f 0) eqn:Hgt.
  - by destruct (Hpos eq_refl) as (-> & -> & _).
  - by destruct (Hneg eq_refl) as (-> & -> & _).
Qed.

(** X12.  Frequency and clarity are always displayed together or not at
    all, and a frequency that is displayed is positive; only an answer of
    the worker to a request in flight changes either of them, to the
    answered pair when the frequency is positive and to nothing when it is
    not. *)
Theorem display_shows_a_positive_frequency_with_its_clarity tr :
  displayConsistent (run init tr)
  ∧ ∀ e, let s := run init tr in
      (freq (step s e) = freq s ∧ clarity (step s e) = clarity s)
      ∨ ∃ k f c r,
          e = PitchResolved k f c ∧ requests s = [r] ∧ k = 0
          ∧ (if JS.gt f 0
             then freq (step s e) = Some f ∧ clarity (step s e) = Some c
             else freq (step s e) = None ∧ clarity (step s e) = None).
Proof.
  split.
  - induction tr as [|e tr IH] using rev_ind; [done|].
    unfold PitchMonitor.run in *. rewrite fold_left_app. simpl.
    by apply displayConsistent_step.
  - intros e s.
    destruct (step_display props p m freqToNote s e)
      as [(Hf & Hc & _) | (k & f & c & r & -> & Hk)]; [by left | right].
    exists k, f, c, r.
    pose proof (serialized_run props p m freqToNote tr _ (serialized_init p))
      as [Hlen _].
    fold s in Hlen.
    assert (requests s = [r] ∧ k = 0) as [Hr ->].
    { destruct (requests s) as [|r0 [|r1 rs]]; simpl in *; try lia;
        try by rewrite lookup_nil in Hk.
      destruct k as [|k]; [by injection Hk as -> |].
      by rewrite lookup_cons, lookup_nil in Hk. }
    repeat split; try done.
    rewrite (step_PitchResolved props p m freqToNote s 0 r f c Hk).
    match goal with |- context [updatePitch_resume _ _ _ _ ?s0] =>
      destruct (updatePitch_resume_fields freqToNote r f c s0)
        as (_ & _ & _ & _ & _ & Hpos & Hneg)
    end.
    destruct (JS.gt f 0) eqn:Hgt.
    + by destruct (Hpos eq_refl) as (-> & -> & _).
    + by destruct (Hneg eq_refl) as (-> & -> & _).
Qed.

End Display.

(** A request issued by the first frame is rejected; the next frames find
    the flag set and issue nothing. *)
Lemma rejected_request_example :
  PitchMonitor.requests
    (PitchMonitor.run Demo.props Demo.p Demo.math Demo.freqToNote
       (PitchMonitor.step Demo.props Demo.p Demo.math Demo.freqToNote
          (PitchMonitor.run Demo.props Demo.p Demo.math Demo.freqToNote
             (PitchMonitor.init Demo.p)
             [PitchMonitor.Enable; PitchMonitor.SetupDone 0 44100 []])
          (PitchMonitor.PitchRejected 0))
       [PitchMonitor.AnimationFrame 0 []; PitchMonitor.AnimationFrame 0 []])
  = [].
Proof.
  exact (proj1 (proj2 (rejected_request_stops_detection_for_good
                  Demo.props Demo.p Demo.math Demo.freqToNote
                  [PitchMonitor.Enable; PitchMonitor.SetupDone 0 44100 []]
                  0 _
                  [PitchMonitor.AnimationFrame 0 []; PitchMonitor.AnimationFrame 0 []]
                  eq_refl))).
Defined.

(** ** The component and the animation's controller *)

Section Controller.

Import PitchMonitor.

Context (props : PitchProps) (p : TreeAnimation.p5) (m : JS.Math)
        (freqToNote : float → NoteName * Z).

Local Abbreviation step := (PitchMonitor.step props p m freqToNote).
Local Abbreviation run := (PitchMonitor.run props p m freqToNote).
Local Abbreviation init := (PitchMonitor.init p).
Local Abbreviation renderFrame := (PitchMonitor.renderFrame props).

Lemma cleanup_noController s : noController s → noController (cleanup s).
Proof.
  intros (Hc & Hl & Hr & Ht). repeat split; try done.
  unfold cleanup. simpl. apply Forall_alter; [done|]. by intros l _.
Qed.

Lemma renderFrame_noController i input s :
  noController s → noController (renderFrame i input s).
Proof.
  intros (Hc & Hl & Hr & Ht). unfold PitchMonitor.renderFrame.
  destruct (loops s !! i) as [l|] eqn:Hi; [|done].
  assert (loop_controller l = false) as Hlc
    by exact (proj1 (Forall_lookup _ _) Hl i l Hi).
  assert (∀ ph, Forall (fun l => loop_controller l = false)
                  (<[i := set_phase ph l]> (loops s))) as Hl'
    by (intros ph; by apply Forall_insert).
  destruct (cancelRender l); [split; [done|split; [apply Hl'|done]]|].
  match goal with |- context [PitchMonitor.updatePitch _ ?hc _ ?s0] =>
    destruct (updatePitch_cases props hc input s0)
      as [[_ ->] | [(_ & _ & ->)
         | (_ & a & b & ctx & _ & _ & _ & _ & Hreq & _ & _ & Hlo & Hto & Hco & _)]]
  end; try (split; [done|split; [apply Hl'|done]]).
  unfold noController. rewrite Hreq, Hlo, Hto, Hco. simpl.
  split; [done|]. split; [apply Hl'|]. split; [|done]. rewrite Hlc.
  apply Forall_app. split; [done|]. by apply Forall_singleton.
Qed.

Lemma untouched_step sk e :
  TreeAnimation.untouched p sk →
  TreeAnimation.isStart e = false → TreeAnimation.isFly e = false →
  TreeAnimation.untouched p (TreeAnimation.step p m sk e).
Proof.
  intros Hu Hs Hfly. pose proof Hu as (Hl & Hb & Hi & Hf).
  destruct e as [color count|color count| |t| |];
    try discriminate Hs; try discriminate Hfly; unfold TreeAnimation.step.
  - unfold TreeAnimation.cancelFlight. rewrite Hf. exact Hu.
  - rewrite Hi, lookup_empty. exact Hu.
  - destruct (TreeAnimation.looping sk); [|exact Hu].
    destruct (draw_fields p m sk) as (El & Ef & Ei & _).
    unfold TreeAnimation.untouched.
    rewrite El, Ef, Ei, birds_draw, Hb. auto.
  - unfold TreeAnimation.teardown. rewrite Hf. exact Hu.
Qed.

Lemma startLoop_noController stop rate i input s :
  noController s →
  noController (startLoop props i input (setupConnection props stop rate s)).
Proof.
  intros (Hc & Hl & Hr & Ht).
  destruct (startLoop_setup props stop rate i input s)
    as (s0 & (_ & _ & _ & Eco & Elo & Ere & Eti & _) & [-> | ->]).
  - apply renderFrame_noController. unfold noController.
    by rewrite Eco, Elo, Ere, Eti.
  - unfold noController. cbn [controller loops requests timeouts set_loops].
    rewrite Eco, Elo, Ere, Eti.
    split; [done|]. split; [|done]. apply Forall_alter; [done|]. by intros l _.
Qed.

Lemma noController_step s e :
  isControllerReady e = false →
  noController s ∧ TreeAnimation.untouched p (sketch s) →
  noController (step s e) ∧ TreeAnimation.untouched p (sketch (step s e)).
Proof.
  intros He [Hn Hu].
  destruct e as [| | |i rate input|i input|k frequency clarity'|k|k|t| | |i stop rate];
    try discriminate.
  - split; [|done]. destruct (cleanup_noController s Hn) as (Hc & Hl & Hr & Ht).
    repeat split; try done. simpl. apply Forall_app. split; [done|].
    apply Forall_singleton. simpl. by destruct Hn.
  - split; [|done]. by apply cleanup_noController.
  - simpl. destruct (loops s !! i) as [l|]; [|done].
    destruct (phase l); try done.
    destruct (startLoop_fields props None rate i input s)
      as (_ & _ & _ & _ & ->).
    split; [by apply startLoop_noController|done].
  - simpl. destruct (loops s !! i) as [l|]; [|done].
    destruct (phase l); try done.
    destruct (renderFrame_fields props i input s) as (_ & _ & _ & _ & -> & _).
    split; [by apply renderFrame_noController|done].
  - simpl. destruct (requests s !! k) as [r|] eqn:Hk; [|done].
    destruct Hn as (Hc & Hl & Hr & Ht).
    assert (req_controller r = false) as Hrc
      by exact (proj1 (Forall_lookup _ _) Hr k r Hk).
    match goal with |- context [updatePitch_resume _ _ _ _ ?s0] =>
      destruct (updatePitch_resume_fields freqToNote r frequency clarity' s0)
        as (_ & Ereq & Elo & Eco & Esk & Hpos & Hneg)
    end.
    rewrite Esk. split; [|done].
    unfold noController. rewrite Ereq, Elo, Eco.
    split; [exact Hc|]. split; [exact Hl|].
    split; [by apply Forall_delete|].
    destruct (JS.gt frequency 0).
    + destruct (Hpos eq_refl) as (_ & _ & ->).
      apply Forall_app. split; [exact Ht|]. by apply Forall_singleton.
    + destruct (Hneg eq_refl) as (_ & _ & ->). exact Ht.
  - split; [|done]. destruct Hn as (? & ? & ? & ?).
    repeat split; try done. by apply Forall_delete.
  - simpl. destruct (timeouts s !! k) as [t|] eqn:Hk; [|done].
    destruct Hn as (Hc & Hl & Hr & Ht).
    rewrite (proj1 (Forall_lookup _ _) Ht k t Hk). simpl.
    split; [|done]. repeat split; try done. by apply Forall_delete.
  - split; [done|]. by apply untouched_step.
  - split; [done|]. by apply untouched_step.
  - split; [done|]. by apply untouched_step.
  - simpl. destruct (loops s !! i) as [l|]; [|done].
    destruct (phase l); try done.
    destruct (startLoop_fields props (Some stop) rate i [] s)
      as (_ & _ & _ & _ & ->).
    split; [by apply startLoop_noController|done].
Qed.

(** X13.  Until the animation has handed its controller to the hook, the
    hook's [startRandomFlight] does nothing: every effect run, request and
    delayed trigger carries a closure without a controller, so detections
    are displayed but no timer is ever set, no bird appears and no leaf is
    used, whatever else happens. *)
Theorem without_a_controller_detections_start_no_campaign tr :
  forallb (fun e => negb (isControllerReady e)) tr = true →
  let s := run init tr in
  noController s
  ∧ TreeAnimation.intervals (sketch s) = ∅
  ∧ TreeAnimation.flightInterval (sketch s) = None
  ∧ TreeAnimation.birds (sketch s) = []
  ∧ TreeAnimation.leaves (sketch s)
    = TreeAnimation.leaves (TreeAnimation.setup p).
Proof.
  intros Htr. cbv zeta.
  assert (noController (run init tr)
          ∧ TreeAnimation.untouched p (sketch (run init tr)))
    as [Hn (Hl & Hb & Hi & Hf)];
    [|split; [exact Hn|split; [exact Hi|split; [exact Hf|split;
       [exact Hb|exact Hl]]]]].
  induction tr as [|e tr IH] using rev_ind.
  - destruct (setup_fields p) as (_ & _ & Hf & Hi & _ & Hb).
    split.
    + split; [reflexivity|]. split; [apply Forall_nil_2|].
      split; apply Forall_nil_2.
    + split; [reflexivity|]. split; [exact Hb|]. split; [exact Hi|exact Hf].
  - rewrite forallb_app in Htr. apply andb_prop in Htr as [Htr He].
    cbn [forallb] in He. rewrite andb_true_r in He. apply negb_true_iff in He.
    unfold PitchMonitor.run in *. rewrite fold_left_app.
    cbn [fold_left]. apply noController_step; [exact He|]. apply IH, Htr.
Qed.

Lemma colorMap_in_colors note : colorMap note ∈ TreeAnimation.colors.
Proof.
  apply list_elem_of_In. unfold TreeAnimation.colors.
  destruct note; simpl; tauto.
Qed.

Lemma startRandomFlight_timers color count sk t c :
  TreeAnimation.intervals (fst (TreeAnimation.startRandomFlight color count sk)) !! t
    = Some c →
  c = (color, count) ∨ TreeAnimation.intervals sk !! t = Some c.
Proof.
  unfold TreeAnimation.startRandomFlight, TreeAnimation.setInterval,
    TreeAnimation.clearInterval.
  destruct (TreeAnimation.flightInterval sk) as [t0|]; simpl;
    intros [[_ <-] | [_ H]]%lookup_insert_Some; auto.
  apply lookup_delete_Some in H as [_ H]. auto.
Qed.

Lemma sketch_step_timers sk e t c :
  TreeAnimation.isStart e = false →
  TreeAnimation.intervals (TreeAnimation.step p m sk e) !! t = Some c →
  TreeAnimation.intervals sk !! t = Some c.
Proof.
  intros He.
  destruct e as [color count|color count| |t0| |]; simpl in *; try discriminate.
  - by destruct (fly_fields p color count sk) as (_ & _ & -> & _).
  - unfold TreeAnimation.cancelFlight, TreeAnimation.clearInterval.
    destruct (TreeAnimation.flightInterval sk); simpl; [|done].
    by intros [_ H]%lookup_delete_Some.
  - destruct (TreeAnimation.intervals sk !! t0) as [[color count]|]; [|done].
    by destruct (fly_fields p (Some color) count sk) as (_ & _ & -> & _).
  - destruct (TreeAnimation.looping sk); [|done].
    by destruct (draw_fields p m sk) as (_ & _ & -> & _).
  - unfold TreeAnimation.teardown, TreeAnimation.clearInterval.
    destruct (TreeAnimation.flightInterval sk); simpl; [|done].
    by intros [_ H]%lookup_delete_Some.
Qed.

Lemma paletteColours_step s e : paletteColours s → paletteColours (step s e).
Proof.
  intros [Ht Hi].
  assert (∀ s', timeouts s' = timeouts s → sketch s' = sketch s →
                paletteColours s') as Hsame.
  { intros s' Et Es. unfold paletteColours. by rewrite Et, Es. }
  assert (∀ s' e', TreeAnimation.isStart e' = false →
            timeouts s' = timeouts s →
            sketch s' = TreeAnimation.step p m (sketch s) e' →
            paletteColours s') as Hsketch.
  { intros s' e' He' Et Es. unfold paletteColours. rewrite Et, Es.
    split; [done|]. intros t color count H.
    apply sketch_step_timers in H; [|done]. eauto. }
  destruct e as [| | |i rate input|i input|k frequency clarity'|k|k|t| | |i stop rate];
    try (by apply Hsame); try (by eapply Hsketch).
  - simpl. destruct (loops s !! i) as [l|]; [|done].
    destruct (phase l); try done.
    destruct (startLoop_fields props None rate i input s)
      as (_ & _ & Et & _ & Es).
    by apply Hsame.
  - simpl. destruct (loops s !! i) as [l|]; [|done].
    destruct (phase l); try done.
    destruct (renderFrame_fields props i input s) as (_ & _ & Et & _ & Es & _).
    by apply Hsame.
  - simpl. destruct (requests s !! k) as [r|]; [|done].
    match goal with |- context [updatePitch_resume _ _ _ _ ?s0] =>
      destruct (updatePitch_resume_fields freqToNote r frequency clarity' s0)
        as (_ & _ & _ & _ & Es & Hpos & Hneg)
    end.
    unfold paletteColours. rewrite Es. split; [|done].
    destruct (JS.gt frequency 0).
    + destruct (Hpos eq_refl) as (_ & _ & ->). simpl.
      apply Forall_app. split; [done|]. apply Forall_singleton. simpl.
      apply colorMap_in_colors.
    + by destruct (Hneg eq_refl) as (_ & _ & ->).
  - simpl. destruct (timeouts s !! k) as [t|] eqn:Hk; [|done].
    pose proof (proj1 (Forall_lookup _ _) Ht k t Hk) as Hcol.
    unfold hook_startRandomFlight.
    destruct (to_controller t); simpl;
      (split; [by apply Forall_delete|]); [|done].
    intros t' color count H. simpl in H.
    apply startRandomFlight_timers in H as [[= -> ->] | H]; eauto.
  - by apply (Hsketch _ (TreeAnimation.Interval t)).
  - by apply (Hsketch _ TreeAnimation.Frame).
  - by apply (Hsketch _ TreeAnimation.Teardown).
  - simpl. destruct (loops s !! i) as [l|]; [|done].
    destruct (phase l); try done.
    destruct (startLoop_fields props (Some stop) rate i [] s)
      as (_ & _ & Et & _ & Es).
    by apply Hsame.
Qed.

(** X14.  The colour names that the component derives from notes are
    names of the leaf palette: every delayed trigger, every timer of the
    animation and so the running campaign carries one of the twelve names
    that [generateLeaves] gives to leaves. *)
Theorem triggers_and_campaigns_carry_palette_colours tr :
  let s := run init tr in
  paletteColours s
  ∧ (∀ note, colorMap note ∈ TreeAnimation.colors)
  ∧ ∀ color count,
      TreeAnimation.campaign (sketch s) = Some (color, count) →
      color ∈ TreeAnimation.colors.
Proof.
  cbv zeta.
  assert (paletteColours (run init tr)) as H.
  { induction tr as [|e tr IH] using rev_ind.
    - split; [apply Forall_nil_2|]. intros t color count.
      change (sketch (run init [])) with (TreeAnimation.setup p).
      destruct (setup_fields p) as (_ & _ & _ & -> & _).
      by rewrite lookup_empty.
    - unfold PitchMonitor.run in *. rewrite fold_left_app. cbn [fold_left].
      apply paletteColours_step, IH. }
  split; [done|]. split; [apply colorMap_in_colors|].
  intros color count. unfold TreeAnimation.campaign.
  destruct (TreeAnimation.flightInterval _) as [t|]; [|done].
  destruct H as [_ H]. apply H.
Qed.

End Controller.

(** Without a controller a detected 440 Hz is displayed, its delayed
    trigger fires, and no timer is set. *)
Lemma without_a_controller_example :
  TreeAnimation.intervals
    (PitchMonitor.sketch
       (PitchMonitor.run Demo.props Demo.p Demo.math Demo.freqToNote
          (PitchMonitor.init Demo.p)
          [PitchMonitor.Enable; PitchMonitor.SetupDone 0 44100 [];
           PitchMonitor.PitchResolved 0 440 0.9; PitchMonitor.TimeoutFires 0;
           PitchMonitor.SketchFrame]))
  = ∅.
Proof.
  exact (proj1 (proj2 (without_a_controller_detections_start_no_campaign
                  Demo.props Demo.p Demo.math Demo.freqToNote
                  [PitchMonitor.Enable; PitchMonitor.SetupDone 0 44100 [];
                   PitchMonitor.PitchResolved 0 440 0.9;
                   PitchMonitor.TimeoutFires 0; PitchMonitor.SketchFrame]
                  eq_refl))).
Defined.

(** ** From a detection to a campaign *)

Section Trigger.

Import PitchMonitor.

Context (props : PitchProps) (p : TreeAnimation.p5) (m : JS.Math)
        (freqToNote : float → NoteName * Z).

Local Abbreviation step := (PitchMonitor.step props p m freqToNote).
Local Abbreviation run := (PitchMonitor.run props p m freqToNote).
Local Abbreviation init := (PitchMonitor.init p).

Lemma step_timeouts s e :
  timeouts (step s e) = timeouts s
  ∨ (∃ k, timeouts (step s e) = delete k (timeouts s))
  ∨ ∃ f r,
      JS.gt f 0 = true
      ∧ timeouts (step s e)
        = timeouts s
          ++ [{| to_color := colorMap (fst (freqToNote f));
                 to_count := snd (freqToNote f);
                 to_controller := req_controller r |}].
Proof.
  destruct (step_display props p m freqToNote s e)
    as [(_ & _ & [Ht | Ht]) | (k & f & c & r & -> & Hk)]; [auto | auto |].
  rewrite (step_PitchResolved props p m freqToNote s k r f c Hk).
  match goal with |- context [updatePitch_resume _ _ _ _ ?s0] =>
    destruct (updatePitch_resume_fields freqToNote r f c s0)
      as (_ & _ & _ & _ & _ & Hpos & Hneg)
  end.
  destruct (JS.gt f 0) eqn:Hgt.
  - destruct (Hpos eq_refl) as (_ & _ & ->). right. right. by exists f, r.
  - destruct (Hneg eq_refl) as (_ & _ & ->). by left.
Qed.

Lemma step_sketch s e :
  sketch (step s e) = sketch s
  ∨ ∃ e', sketch (step s e) = TreeAnimation.step p m (sketch s) e'.
Proof.
  destruct e as [| | |i rate input|i input|k frequency clarity'|k|k|t| | |i stop rate];
    try (by left); try (right; by eexists).
  - left. simpl. destruct (loops s !! i) as [l|]; [|done].
    destruct (phase l); try done.
    by destruct (startLoop_fields props None rate i input s)
      as (_ & _ & _ & _ & ->).
  - left. simpl. destruct (loops s !! i) as [l|]; [|done].
    destruct (phase l); try done.
    by destruct (renderFrame_fields props i input s) as (_ & _ & _ & _ & -> & _).
  - left. simpl. destruct (requests s !! k) as [r|]; [|done].
    match goal with |- context [updatePitch_resume _ _ _ _ ?s0] =>
      by destruct (updatePitch_resume_fields freqToNote r frequency clarity' s0)
        as (_ & _ & _ & _ & -> & _)
    end.
  - simpl. destruct (timeouts s !! k) as [t|]; [|by left].
    unfold hook_startRandomFlight. destruct (to_controller t); [|by left].
    right. by exists (TreeAnimation.StartRandomFlight (to_color t) (to_count t)).
  - left. simpl. destruct (loops s !! i) as [l|]; [|done].
    destruct (phase l); try done.
    by destruct (startLoop_fields props (Some stop) rate i [] s)
      as (_ & _ & _ & _ & ->).
Qed.

Lemma oneCampaign_monitor tr : TreeAnimation.oneCampaign (sketch (run init tr)).
Proof.
  induction tr as [|e tr IH] using rev_ind; [apply oneCampaign_setup|].
  unfold PitchMonitor.run in *. rewrite fold_left_app. cbn [fold_left].
  match goal with |- context [PitchMonitor.step _ _ _ _ ?s0 e] =>
    destruct (step_sketch s0 e) as [-> | [e' ->]]
  end; [done | by apply oneCampaign_step].
Qed.

Lemma detected_run tr :
  Forall (fun t => ∃ f, JS.gt f 0 = true
                        ∧ to_color t = colorMap (fst (freqToNote f))
                        ∧ to_count t = snd (freqToNote f))
         (timeouts (run init tr)).
Proof.
  induction tr as [|e tr IH] using rev_ind; [apply Forall_nil_2|].
  unfold PitchMonitor.run in *. rewrite fold_left_app. cbn [fold_left].
  match goal with |- context [PitchMonitor.step _ _ _ _ ?s0 e] =>
    destruct (step_timeouts s0 e) as [-> | [[k ->] | (f & r & Hgt & ->)]]
  end; [done | by apply Forall_delete |].
  apply Forall_app. split; [done|]. apply Forall_singleton. by exists f.
Qed.

(** X15.  When the delayed trigger of a detection fires, it leaves the
    queue; with a controller it replaces whatever campaign is running by
    its own, the only live timer from then on, and creates no bird yet;
    without one it changes nothing in the animation.  The colour and the
    count of the trigger are those of the note and the octave of a positive
    frequency that was detected. *)
Theorem fired_trigger_replaces_the_campaign_by_that_of_its_note tr k t :
  let s := run init tr in
  timeouts s !! k = Some t →
  let s' := step s (TimeoutFires k) in
  timeouts s' = delete k (timeouts s)
  ∧ TreeAnimation.birds (sketch s') = TreeAnimation.birds (sketch s)
  ∧ TreeAnimation.leaves (sketch s') = TreeAnimation.leaves (sketch s)
  ∧ (to_controller t = false → sketch s' = sketch s)
  ∧ (to_controller t = true →
       TreeAnimation.campaign (sketch s') = Some (to_color t, to_count t)
       ∧ TreeAnimation.intervals (sketch s')
         = {[ TreeAnimation.nextTimer (sketch s) := (to_color t, to_count t) ]}
       ∧ TreeAnimation.flightInterval (sketch s')
         = Some (TreeAnimation.nextTimer (sketch s)))
  ∧ ∃ f, JS.gt f 0 = true
         ∧ to_color t = colorMap (fst (freqToNote f))
         ∧ to_count t = snd (freqToNote f).
Proof.
  cbv zeta. intros Hk.
  pose proof (oneCampaign_monitor tr) as Hone.
  pose proof (proj1 (Forall_lookup _ _) (detected_run tr) k t Hk) as Hdet.
  set (s := run init tr) in *.
  destruct (startRandomFlight_fields (to_color t) (to_count t) (sketch s) Hone)
    as (Hfi & Hin & _ & Hle & Hbi & _).
  assert (step s (TimeoutFires k)
          = hook_startRandomFlight (to_controller t) (to_color t) (to_count t)
              (set_timeouts (delete k (timeouts s)) s)) as ->.
  { unfold PitchMonitor.step. by rewrite Hk. }
  unfold hook_startRandomFlight.
  destruct (to_controller t); cbn [sketch timeouts set_sketch set_timeouts].
  - split; [done|]. split; [exact Hbi|]. split; [exact Hle|].
    split; [discriminate|]. split; [|exact Hdet]. intros _.
    unfold TreeAnimation.campaign. rewrite Hfi, Hin.
    split; [apply lookup_singleton_eq|done].
  - split; [done|]. split; [done|]. split; [done|]. split; [done|].
    split; [discriminate | exact Hdet].
Qed.

End Trigger.

(** A detected 440 Hz, note A of octave 4: when its trigger fires, the
    campaign is that of colour ash and count 4. *)
Lemma fired_trigger_example :
  TreeAnimation.campaign
    (PitchMonitor.sketch
       (PitchMonitor.step Demo.props Demo.p Demo.math Demo.freqToNote
          (PitchMonitor.run Demo.props Demo.p Demo.math Demo.freqToNote
             (PitchMonitor.init Demo.p)
             [PitchMonitor.ControllerReady; PitchMonitor.Enable;
              PitchMonitor.SetupDone 0 44100 [];
              PitchMonitor.PitchResolved 0 440 0.5])
          (PitchMonitor.TimeoutFires 0)))
  = Some ("ash", 4%Z).
Proof.
  exact (proj1 (proj1 (proj2 (proj2 (proj2 (proj2
           (fired_trigger_replaces_the_campaign_by_that_of_its_note
              Demo.props Demo.p Demo.math Demo.freqToNote
              [PitchMonitor.ControllerReady; PitchMonitor.Enable;
               PitchMonitor.SetupDone 0 44100 [];
               PitchMonitor.PitchResolved 0 440 0.5]
              0 _ eq_refl))))) eq_refl)).
Defined.

(** ** A setup that cannot succeed *)

Section FailedSetup.

Import PitchMonitor.

Context (props : PitchProps) (p : TreeAnimation.p5) (m : JS.Math)
        (freqToNote : float → NoteName * Z).

Local Abbreviation step := (PitchMonitor.step props p m freqToNote).
Local Abbreviation run := (PitchMonitor.run props p m freqToNote).
Local Abbreviation init := (PitchMonitor.init p).

Lemma setupConnection_negative stop rate s :
  (windowSize props < 0)%Z →
  setupConnection props stop rate s = Rejected s.
Proof.
  intros Hw. unfold setupConnection.
  destruct (fails stop CreateDetector); [done|].
  by rewrite (proj2 (Z.ltb_lt _ _) Hw).
Qed.

Lemma never_started_step s e :
  (windowSize props < 0)%Z →
  requests s = [] ∧ pendingRef s = false ∧ freq s = None ∧ clarity s = None
  ∧ timeouts s = [] ∧ pitchSetupRef s = pitchSetupRef init
  ∧ Forall (fun l => phase l = SettingUp ∨ phase l = Failed) (loops s) →
  requests (step s e) = [] ∧ pendingRef (step s e) = false
  ∧ freq (step s e) = None ∧ clarity (step s e) = None
  ∧ timeouts (step s e) = [] ∧ pitchSetupRef (step s e) = pitchSetupRef init
  ∧ Forall (fun l => phase l = SettingUp ∨ phase l = Failed) (loops (step s e)).
Proof.
  intros Hw (Hr & Hp & Hf & Hc & Ht & Hps & Hl).
  assert (∀ i stop rate input,
            startLoop props i input (setupConnection props stop rate s)
            = set_loops (alter (set_phase Failed) i (loops s)) s) as Hsetup.
  { intros i stop rate input. by rewrite setupConnection_negative. }
  assert (Forall (fun l => phase l = SettingUp ∨ phase l = Failed)
            (loops (cleanup s))) as Hcl.
  { unfold cleanup. cbn [loops set_loops]. apply Forall_alter; [done|].
    by intros l _. }
  destruct e as [| | |i rate input|i input|k frequency clarity'|k|k|t| | |i stop rate];
    simpl.
  - repeat split; try done. apply Forall_app. split; [done|].
    apply Forall_singleton. by left.
  - by repeat split.
  - by repeat split.
  - destruct (loops s !! i) as [l|]; [|by repeat split].
    destruct (phase l); try by repeat split.
    rewrite Hsetup. repeat split; try done. cbn [loops set_loops].
    apply Forall_alter; [done|]. intros l' _ _. by right.
  - destruct (loops s !! i) as [l|] eqn:Hi; [|by repeat split].
    destruct (proj1 (Forall_lookup _ _) Hl i l Hi) as [-> | ->];
      by repeat split.
  - rewrite Hr, lookup_nil. by repeat split.
  - rewrite Hr. by repeat split.
  - rewrite Ht, lookup_nil. by repeat split.
  - by repeat split.
  - by repeat split.
  - by repeat split.
  - destruct (loops s !! i) as [l|]; [|by repeat split].
    destruct (phase l); try by repeat split.
    rewrite Hsetup. repeat split; try done. cbn [loops set_loops].
    apply Forall_alter; [done|]. intros l' _ _. by right.
Qed.

(** X16.  With a negative window size [new Float32Array(windowSize)]
    throws in every [setupConnection], before anything is assigned: the
    capture context stays empty, no run of the effect ever calls
    [renderFrame], and so no request is issued, the flag stays clear,
    nothing is displayed and no trigger is scheduled, whatever happens. *)
Theorem negative_window_size_starts_no_detection tr :
  (windowSize props < 0)%Z →
  let s := run init tr in
  requests s = [] ∧ pendingRef s = false ∧ freq s = None ∧ clarity s = None
  ∧ timeouts s = [] ∧ pitchSetupRef s = pitchSetupRef init
  ∧ Forall (fun l => phase l = SettingUp ∨ phase l = Failed) (loops s).
Proof.
  intros Hw. cbv zeta. induction tr as [|e tr IH] using rev_ind.
  - by repeat split.
  - unfold PitchMonitor.run in *. rewrite fold_left_app. cbn [fold_left].
    by apply never_started_step.
Qed.

End FailedSetup.

(** A window size of -1: the setup of the first run throws, and the frame
    that would follow finds no loop to run. *)
Lemma negative_window_size_example :
  let props :=
    {| PitchMonitor.detectorName := "mcleod"; PitchMonitor.windowSize := -1;
       PitchMonitor.powerThreshold := 0.15%float;
       PitchMonitor.clarityThreshold := 0.6%float |} in
  PitchMonitor.requests
    (PitchMonitor.run props Demo.p Demo.math Demo.freqToNote
       (PitchMonitor.init Demo.p)
       [PitchMonitor.Enable; PitchMonitor.SetupDone 0 44100 [];
        PitchMonitor.AnimationFrame 0 []])
  = [].
Proof.
  exact (proj1 (negative_window_size_starts_no_detection
                  {| PitchMonitor.detectorName := "mcleod";
                     PitchMonitor.windowSize := -1;
                     PitchMonitor.powerThreshold := 0.15%float;
                     PitchMonitor.clarityThreshold := 0.6%float |}
                  Demo.p Demo.math Demo.freqToNote
                  [PitchMonitor.Enable; PitchMonitor.SetupDone 0 44100 [];
                   PitchMonitor.AnimationFrame 0 []]
                  eq_refl)).
Defined.
